(** * LabelField: the label encoder of flambe/field/label.py

    A shallow embedding of the class [LabelField] and the properties of its
    vocabulary and label statistics.

    Python values are modelled as follows.
    - [str] is [string]; [int] is [Z] (unbounded, as in Python).
    - A [dict] is an association list in insertion order: iteration order is
      observable ([label_count] walks [self.vocab] in order), so a finite map
      without order would lose what the code depends on.
    - A method that writes [self] or may raise is a computation in the
      monad [M]: it takes the object and gives back an outcome (a value or a
      raised exception) together with the object as the call left it.  An
      exception does not undo the writes made before it.
    - A one-dimensional tensor is the list of its entries. *)

From Stdlib Require Import List String ZArith QArith Bool Lia.
Import ListNotations.

Local Open Scope string_scope.
Local Open Scope Z_scope.
Local Open Scope list_scope.

(** ** Python dictionaries *)

Module Dict.

Definition dict (V : Type) : Type := list (string * V).

(** [d[k]]; [None] stands for the [KeyError] of a missing key. *)
Fixpoint getitem {V : Type} (d : dict V) (k : string) : option V :=
  match d with
  | [] => None
  | (k', v) :: d' => if String.eqb k k' then Some v else getitem d' k
  end.

(** [k in d] *)
Definition contains {V : Type} (d : dict V) (k : string) : bool :=
  match getitem d k with
  | Some _ => true
  | None => false
  end.

(** [d[k] = v]: an existing key keeps its position, a new key goes last. *)
Fixpoint setitem {V : Type} (d : dict V) (k : string) (v : V) : dict V :=
  match d with
  | [] => [(k, v)]
  | (k', v') :: d' =>
      if String.eqb k k' then (k', v) :: d' else (k', v') :: setitem d' k v
  end.

(** [list(d)]: the keys in insertion order. *)
Definition keys {V : Type} (d : dict V) : list string := map fst d.

Definition values {V : Type} (d : dict V) : list V := map snd d.

(** [len(d)] *)
Definition len {V : Type} (d : dict V) : Z := Z.of_nat (List.length d).

End Dict.

Import Dict.

(** ** Exceptions and the object monad *)

Inductive exn : Type :=
| TypeError          (* iterating over None *)
| KeyError           (* subscript of a dict with a missing key *)
| ZeroDivisionError. (* a quotient that is not defined *)

Inductive outcome (A : Type) : Type :=
| Return (a : A)
| Raise (e : exn).

Arguments Return {A} a.
Arguments Raise {A} e.

(** The attributes of a [LabelField] instance.  [tokenizer] and [vocab] are
    the attributes that the parent class [TextField] stores. *)
Record LabelField : Type := mkLabelField {
  one_hot : bool;
  multilabel_sep : option string;
  label_count_dict : dict Z;
  tokenizer : string -> list string;
  vocab : dict Z
}.

Definition M (A : Type) : Type := LabelField -> outcome A * LabelField.

Definition ret {A : Type} (a : A) : M A := fun self => (Return a, self).

Definition raise {A : Type} (e : exn) : M A := fun self => (Raise e, self).

Definition bind {A B : Type} (m : M A) (k : A -> M B) : M B :=
  fun self =>
    match m self with
    | (Return a, self') => k a self'
    | (Raise e, self') => (Raise e, self')
    end.

(** Read the object. *)
Definition this : M LabelField := fun self => (Return self, self).

(** [self.vocab = v] and [self.label_count_dict = c] as attribute writes;
    the code writes them one key at a time, see [vocab_setitem] below. *)
Definition write_vocab (v : dict Z) : M unit :=
  fun self =>
    (Return tt,
     mkLabelField (one_hot self) (multilabel_sep self) (label_count_dict self)
                  (tokenizer self) v).

Definition write_label_count_dict (c : dict Z) : M unit :=
  fun self =>
    (Return tt,
     mkLabelField (one_hot self) (multilabel_sep self) c
                  (tokenizer self) (vocab self)).

(** A dictionary read that raises [KeyError] on a missing key. *)
Definition subscript {A : Type} (d : dict A) (k : string) : outcome A :=
  match getitem d k with
  | Some v => Return v
  | None => Raise KeyError
  end.

(** A list comprehension [[f x for x in l]] whose body may raise: the first
    exception ends it. *)
Fixpoint comprehension {A B : Type} (f : A -> outcome B) (l : list A) : outcome (list B) :=
  match l with
  | [] => Return []
  | x :: rest =>
      match f x with
      | Raise e => Raise e
      | Return y =>
          match comprehension f rest with
          | Raise e => Raise e
          | Return ys => Return (y :: ys)
          end
      end
  end.

Definition lift {A : Type} (o : outcome A) : M A := fun self => (o, self).

Declare Scope py_scope.
Delimit Scope py_scope with py.
Notation "x <- m ;; k" := (bind m (fun x => k))
  (at level 100, m at next level, right associativity) : py_scope.
Notation "m ;; k" := (bind m (fun _ => k))
  (at level 100, right associativity) : py_scope.
Local Open Scope py_scope.

(** [self.vocab[token] = index] *)
Definition vocab_setitem (token : string) (index : Z) : M unit :=
  self <- this ;; write_vocab (setitem (vocab self) token index).

(** [self.label_count_dict[token] = n] *)
Definition label_count_setitem (token : string) (n : Z) : M unit :=
  self <- this ;; write_label_count_dict (setitem (label_count_dict self) token n).

(** [self.label_count_dict[token]] *)
Definition label_count_getitem (token : string) : M Z :=
  self <- this ;; lift (subscript (label_count_dict self) token).

(** ** Construction *)

(** Modelled from the spec: the parent constructor [TextField.__init__] is
    not part of the sources.  The spec says that it stores the tokenizer and
    starts with an empty vocabulary, since no unknown and no padding token is
    reserved. *)
Definition TextField_init (tok : string -> list string) : dict Z * (string -> list string) :=
  ([], tok).

Section Construction.

(** The class [LabelTokenizer] is not part of the sources; the encoder is
    stated for every tokenizer the class may build from a separator. *)
Variable mk_tokenizer : option string -> string -> list string.

(** [LabelField.__init__], lines 30-38. *)
Definition __init__ (one_hot : bool) (multilabel_sep : option string) : LabelField :=
  let label_count_dict : dict Z := [] in
  let tokenizer := mk_tokenizer multilabel_sep in
  let '(vocab, tokenizer) := TextField_init tokenizer in
  mkLabelField one_hot multilabel_sep label_count_dict tokenizer vocab.

End Construction.

(** ** setup *)

(** [x is not None] *)
Definition is_not_None {A : Type} (x : option A) : bool :=
  match x with
  | Some _ => true
  | None => false
  end.

(** The generator of line 50,
    [(e for dataset in data for e in dataset if dataset is not None)],
    read as Python reads it: for each [dataset] of [data], iterate over
    [dataset], and only then filter each element on [dataset is not None].
    Iterating over [None] raises [TypeError], so the generator yields the
    examples of the collections that come before the first absent one and
    then raises.  The result is the finite run of the generator: what it
    yields, and how it ends. *)
Fixpoint examples_of (data : list (option (list string))) : list string * option exn :=
  match data with
  | [] => ([], None)
  | dataset :: rest =>
      match dataset with
      | None => ([], Some TypeError)
      | Some es =>
          let '(more, stop) := examples_of rest in
          (filter (fun _ => is_not_None dataset) es ++ more, stop)
      end
  end.

(** The body of the inner loop, lines 58-62, for one token.  The local
    variable [index] is passed in and its new value returned. *)
Definition setup_token (index : Z) (token : string) : M Z :=
  self <- this ;;
  if negb (contains (vocab self) token) then
    let index := index + 1 in
    vocab_setitem token index ;;
    label_count_setitem token 1 ;;
    ret index
  else
    n <- label_count_getitem token ;;
    label_count_setitem token (n + 1) ;;
    ret index.

(** [for token in self.tokenizer(example): ...] *)
Fixpoint setup_tokens (index : Z) (tokens : list string) : M Z :=
  match tokens with
  | [] => ret index
  | token :: rest =>
      index <- setup_token index token ;; setup_tokens index rest
  end.

(** [for example in examples: ...] over the examples the generator yields. *)
Fixpoint setup_examples (index : Z) (examples : list string) : M Z :=
  match examples with
  | [] => ret index
  | example :: rest =>
      self <- this ;;
      index <- setup_tokens index (tokenizer self example) ;;
      setup_examples index rest
  end.

(** [LabelField.setup], lines 50-62. *)
Definition setup (data : list (option (list string))) : M unit :=
  let '(examples, stop) := examples_of data in
  self <- this ;;
  let index := len (vocab self) - 1 in
  setup_examples index examples ;;
  match stop with
  | None => ret tt
  | Some e => raise e
  end.

(** ** process *)

(** [[v[token] for token in tokens]]: the ids of the tokens, or the
    [KeyError] of the first token that is not a key of [v]. *)
Definition lookup_tokens (v : dict Z) (tokens : list string) : outcome (list Z) :=
  comprehension (subscript v) tokens.

(** Modelled from the spec: the inherited [TextField.process] is not part of
    the sources.  The spec says that it tokenizes the example and maps each
    token to its vocabulary id, in order, that a token missing from the
    vocabulary makes the mapping access fail, and that it has no side
    effect. *)
Definition TextField_process (example : string) : M (list Z) :=
  self <- this ;;
  lift (lookup_tokens (vocab self) (tokenizer self example)).

(** [range(n)] *)
Definition range (n : Z) : list Z := map Z.of_nat (seq 0 (Z.to_nat n)).

(** [int(i in n)] for a tensor [n] of ids. *)
Definition int_in (i : Z) (n : list Z) : Z :=
  if existsb (Z.eqb i) n then 1 else 0.

(** [LabelField.process], lines 79-85. *)
Definition process (example : string) : M (list Z) :=
  n <- TextField_process example ;;
  self <- this ;;
  if one_hot self then
    let n := map (fun i => int_in i n) (range (len (vocab self))) in
    ret n
  else
    ret n.

(** ** Label statistics *)

(** [sum(counts)] *)
Definition sum (counts : list Z) : Z := fold_left Z.add counts 0.

(** [[self.label_count_dict[label] for label in self.vocab]], lines 97, 111. *)
Definition counts (self : LabelField) : outcome (list Z) :=
  comprehension (subscript (label_count_dict self)) (keys (vocab self)).

(** [LabelField.label_count], lines 97-98. *)
Definition label_count (self : LabelField) : outcome (list Z) :=
  counts self.

(** The arithmetic of tensor entries.  The tensor library is not part of the
    repository; the properties use an entry type [F] with the conversion
    [of_int] of an integer and the quotient [true_divide], which is [None]
    where the arithmetic leaves the quotient undefined. *)
Class TensorArith (F : Type) : Type := {
  of_int : Z -> F;
  true_divide : F -> F -> option F
}.

(** Exact rational arithmetic: the quotient by zero is undefined. *)
#[export] Instance Q_arith : TensorArith Q := {
  of_int := inject_Z;
  true_divide := fun x y => if Qeq_bool y 0 then None else Some (x / y)%Q
}.

Section Statistics.

Context {F : Type} `{TensorArith F}.

Definition divide (x y : F) : outcome F :=
  match true_divide x y with
  | Some q => Return q
  | None => Raise ZeroDivisionError
  end.

(** [t / s] for a tensor [t] and a scalar [s]: entry by entry. *)
Definition tensor_div_scalar (t : list F) (s : F) : outcome (list F) :=
  comprehension (fun x => divide x s) t.

(** [s / t] for a scalar [s] and a tensor [t]: entry by entry. *)
Definition scalar_div_tensor (s : F) (t : list F) : outcome (list F) :=
  comprehension (fun x => divide s x) t.

(** [LabelField.label_freq], lines 111-112. *)
Definition label_freq (self : LabelField) : outcome (list F) :=
  match counts self with
  | Raise e => Raise e
  | Return counts => tensor_div_scalar (map of_int counts) (of_int (sum counts))
  end.

(** [LabelField.label_inv_freq], line 125. *)
Definition label_inv_freq (self : LabelField) : outcome (list F) :=
  match label_freq self with
  | Raise e => Raise e
  | Return freq => scalar_div_tensor (of_int 1) freq
  end.

End Statistics.

(** ** The label tokenizer *)

(** Modelled from the spec: the splitting done by the class
    [LabelTokenizer], which is not part of the sources.  [split_at sep 0 "" s]
    cuts [s] at every occurrence of [sep], from left to right; [skip] counts
    the characters of a matched separator still to pass over and [current]
    is the token being read. *)
Fixpoint split_at (sep : string) (skip : nat) (current : string) (s : string) : list string :=
  match s with
  | EmptyString => [current]
  | String c s' =>
      match skip with
      | S skip' => split_at sep skip' current s'
      | O =>
          if String.prefix sep s
          then current :: split_at sep (String.length sep - 1) EmptyString s'
          else split_at sep O (current ++ String c EmptyString)%string s'
      end
  end.

(** Modelled from the spec: the class [LabelTokenizer] is not part of the
    sources.  The spec says that it splits one raw string at the separator
    into one or more tokens, and yields the whole string as one token when no
    separator is configured.  An empty separator has nothing to split at and
    is read as no separator. *)
Definition LabelTokenizer (multilabel_sep : option string) (example : string) : list string :=
  match multilabel_sep with
  | None => [example]
  | Some EmptyString => [example]
  | Some sep => split_at sep O EmptyString example
  end.

(** ** Vocabulary of the properties *)

(** The object as a call leaves it, and what the call returns or raises. *)
Definition after {A : Type} (m : M A) (self : LabelField) : LabelField := snd (m self).

Definition result {A : Type} (m : M A) (self : LabelField) : outcome A := fst (m self).

(** A sequence of [setup] calls on one object; a call that raises leaves the
    object as it was when the exception came, and the next call goes on from
    there. *)
Definition setup_calls (calls : list (list (option (list string)))) (self : LabelField) : LabelField :=
  fold_left (fun self data => after (setup data) self) calls self.

(** The examples a [setup] call sees: those of the collections supplied
    before the first absent one (all of them when none is absent). *)
Fixpoint seen_examples (data : list (option (list string))) : list string :=
  match data with
  | Some es :: rest => es ++ seen_examples rest
  | _ => []
  end.

(** The tokens observed by a sequence of [setup] calls, in order, with
    repetitions. *)
Definition observed (tok : string -> list string) (calls : list (list (option (list string)))) : list string :=
  flat_map (fun data => flat_map tok (seen_examples data)) calls.

(** The distinct elements of a list in the order of their first occurrence. *)
Definition first_seen (l : list string) : list string :=
  rev (nodup string_dec (rev l)).

(** Every key of the vocabulary has a count, every counted token is in the
    vocabulary, and every count is at least 1. *)
Definition lockstep (self : LabelField) : bool :=
  forallb (contains (label_count_dict self)) (keys (vocab self))
  && forallb (contains (vocab self)) (keys (label_count_dict self))
  && forallb (fun n => 1 <=? n) (values (label_count_dict self)).

(** The invariant as a proposition: membership in the two tables coincides,
    and every stored count is at least 1. *)
Definition lockstep_prop (self : LabelField) : Prop :=
  (forall k, contains (vocab self) k = contains (label_count_dict self) k)
  /\ Forall (fun n => 1 <= n) (values (label_count_dict self)).

(** The same encoder with the other output shape. *)
Definition with_one_hot (b : bool) (self : LabelField) : LabelField :=
  mkLabelField b (multilabel_sep self) (label_count_dict self) (tokenizer self) (vocab self).

(** The states an encoder goes through: construction, then calls of [setup]
    and [process] in any order, whatever their outcome. *)
Inductive reachable (mk_tokenizer : option string -> string -> list string) : LabelField -> Prop :=
| reach_init (one_hot : bool) (multilabel_sep : option string) :
    reachable mk_tokenizer (__init__ mk_tokenizer one_hot multilabel_sep)
| reach_setup (self : LabelField) (data : list (option (list string))) :
    reachable mk_tokenizer self -> reachable mk_tokenizer (after (setup data) self)
| reach_process (self : LabelField) (example : string) :
    reachable mk_tokenizer self -> reachable mk_tokenizer (after (process example) self).

(** The bookkeeping that [setup] maintains, relative to the tokens [toks]
    observed so far by an encoder with tokenizer [tok]: the vocabulary lists
    the distinct tokens in first-seen order with the ids 0, 1, 2, ..., the
    count table has the same keys in the same order, and the counts are
    positive and add up to the number of tokens. *)
Definition tracks (tok : string -> list string) (toks : list string) (self : LabelField) : Prop :=
  tokenizer self = tok
  /\ keys (vocab self) = first_seen toks
  /\ values (vocab self) = range (len (vocab self))
  /\ keys (label_count_dict self) = keys (vocab self)
  /\ sum (values (label_count_dict self)) = Z.of_nat (List.length toks)
  /\ Forall (fun n => 1 <= n) (values (label_count_dict self)).

(** The sum of a tensor of rationals. *)
Definition Qsum (t : list Q) : Q := fold_left Qplus t 0%Q.

(** ** Vocabulary of the further properties *)

(** Whether some supplied collection is absent. *)
Definition has_None (data : list (option (list string))) : bool :=
  existsb (fun d => negb (is_not_None d)) data.

(** The collections supplied before the first absent one. *)
Fixpoint present_prefix (data : list (option (list string))) : list (option (list string)) :=
  match data with
  | Some es :: rest => Some es :: present_prefix rest
  | _ => []
  end.

(** The tokens a [setup] call on [self] goes through, in order. *)
Definition token_stream (self : LabelField) (data : list (option (list string))) : list string :=
  flat_map (tokenizer self) (seen_examples data).

(** How often a token occurs in a list of tokens. *)
Definition occurrences (toks : list string) (token : string) : Z :=
  Z.of_nat (count_occ string_dec toks token).

(** Every stored count is the number of occurrences among [toks]. *)
Definition counts_occurrences (toks : list string) (self : LabelField) : Prop :=
  forall k n, getitem (label_count_dict self) k = Some n -> n = occurrences toks k.

(** ** Worked examples *)

Definition enc (sep : option string) (calls : list (list (option (list string)))) : LabelField :=
  setup_calls calls (__init__ LabelTokenizer false sep).

Example tokenizer_single : LabelTokenizer None "cat|dog" = ["cat|dog"].
Proof. reflexivity. Qed.

Example tokenizer_multi : LabelTokenizer (Some "|") "cat|dog||x" = ["cat"; "dog"; ""; "x"].
Proof. reflexivity. Qed.

Example tokenizer_long_sep : LabelTokenizer (Some "::") "a::b:c::" = ["a"; "b:c"; ""].
Proof. reflexivity. Qed.

Example first_seen_order :
  first_seen ["b"; "a"; "b"; "c"; "a"] = ["b"; "a"; "c"].
Proof. reflexivity. Qed.

Example setup_continues_numbering :
  vocab (enc None [[Some ["cat"; "dog"]]; [Some ["dog"; "bird"]]])
  = [("cat", 0); ("dog", 1); ("bird", 2)]
  /\ label_count (enc None [[Some ["cat"; "dog"]]; [Some ["dog"; "bird"]]])
     = Return [1; 2; 1].
Proof. vm_compute. repeat split. Qed.

Example setup_cat_dog_cat :
  let self := enc None [[Some ["cat"; "dog"; "cat"]]] in
  vocab self = [("cat", 0); ("dog", 1)]
  /\ label_count_dict self = [("cat", 2); ("dog", 1)]
  /\ label_count self = Return [2; 1]
  /\ label_freq self = Return [(2 # 3)%Q; (1 # 3)%Q].
Proof. vm_compute. repeat split. Qed.

Example division_by_zero_is_undefined :
  divide (of_int 1 : Q) (of_int (sum [])) = Raise ZeroDivisionError.
Proof. reflexivity. Qed.

Example setup_multilabel :
  let self := enc (Some "|") [[Some ["cat|dog"]]] in
  vocab self = [("cat", 0); ("dog", 1)]
  /\ label_count_dict self = [("cat", 1); ("dog", 1)]
  /\ result (process "cat|dog") (with_one_hot true self) = Return [1; 1]
  /\ result (process "cat|dog") self = Return [0; 1].
Proof. vm_compute. repeat split. Qed.

(** ** Dictionaries: reading after writing *)

Lemma getitem_setitem {V : Type} (d : dict V) (k k' : string) (v : V) :
  getitem (setitem d k v) k' = if String.eqb k' k then Some v else getitem d k'.
Proof.
  induction d as [|[k0 v0] d IH]; simpl.
  - destruct (String.eqb k' k); reflexivity.
  - destruct (String.eqb_spec k k0) as [->|Hk]; simpl.
    + destruct (String.eqb k' k0); reflexivity.
    + rewrite IH.
      destruct (String.eqb_spec k' k0) as [->|Hk'].
      * apply String.eqb_neq in Hk. rewrite String.eqb_sym, Hk. reflexivity.
      * reflexivity.
Qed.

Lemma contains_setitem {V : Type} (d : dict V) (k k' : string) (v : V) :
  contains (setitem d k v) k' = String.eqb k' k || contains d k'.
Proof.
  unfold contains. rewrite getitem_setitem.
  destruct (String.eqb k' k); reflexivity.
Qed.

Lemma contains_In {V : Type} (d : dict V) (k : string) :
  contains d k = true <-> In k (keys d).
Proof.
  unfold contains, keys.
  induction d as [|[k0 v0] d IH]; simpl.
  - split; [discriminate | tauto].
  - destruct (String.eqb_spec k k0) as [->|Hk].
    + split; auto.
    + rewrite IH. split; [auto | intros [E|E]; [congruence | exact E]].
Qed.

Lemma contains_false_getitem {V : Type} (d : dict V) (k : string) :
  contains d k = false <-> getitem d k = None.
Proof.
  unfold contains. destruct (getitem d k); split; congruence.
Qed.

Lemma setitem_new {V : Type} (d : dict V) (k : string) (v : V) :
  contains d k = false -> setitem d k v = d ++ [(k, v)].
Proof.
  unfold contains.
  induction d as [|[k0 v0] d IH]; simpl; intros E.
  - reflexivity.
  - destruct (String.eqb k k0); [discriminate|].
    rewrite IH; auto.
Qed.

Lemma keys_setitem_old {V : Type} (d : dict V) (k : string) (v : V) :
  contains d k = true -> keys (setitem d k v) = keys d.
Proof.
  unfold contains, keys.
  induction d as [|[k0 v0] d IH]; simpl; intros E.
  - discriminate.
  - destruct (String.eqb k k0); simpl; [reflexivity|].
    rewrite IH; auto.
Qed.

Lemma length_setitem_old {V : Type} (d : dict V) (k : string) (v : V) :
  contains d k = true -> List.length (setitem d k v) = List.length d.
Proof.
  intros E. apply keys_setitem_old with (v := v) in E.
  apply (f_equal (@List.length string)) in E.
  unfold keys in E. now rewrite !length_map in E.
Qed.

(** ** Sums, ranges and first-seen order *)

Lemma fold_add_shift (l : list Z) (a : Z) :
  fold_left Z.add l a = a + fold_left Z.add l 0.
Proof.
  revert a. induction l as [|x l IH]; intros a; simpl.
  - lia.
  - rewrite IH. rewrite (IH x). lia.
Qed.

Lemma sum_cons (x : Z) (l : list Z) : sum (x :: l) = x + sum l.
Proof. unfold sum. simpl. apply fold_add_shift. Qed.

Lemma sum_app (l l' : list Z) : sum (l ++ l') = sum l + sum l'.
Proof.
  induction l as [|x l IH]; simpl.
  - reflexivity.
  - rewrite !sum_cons, IH. lia.
Qed.

Lemma sum_ge (l : list Z) :
  Forall (fun n => 1 <= n) l -> Z.of_nat (List.length l) <= sum l.
Proof.
  induction 1 as [|x l Hx Hl IH].
  - reflexivity.
  - rewrite sum_cons. simpl List.length. lia.
Qed.

Lemma range_len_snoc {V : Type} (d : dict V) (kv : string * V) :
  range (len (d ++ [kv])) = range (len d) ++ [len d].
Proof.
  unfold range, len. rewrite !Nat2Z.id, length_app. simpl.
  rewrite Nat.add_1_r, seq_S, map_app. reflexivity.
Qed.

Lemma length_range (n : Z) : List.length (range n) = Z.to_nat n.
Proof. unfold range. now rewrite length_map, length_seq. Qed.

Lemma nth_range (n : Z) (i : nat) :
  (i < Z.to_nat n)%nat -> nth i (range n) 0 = Z.of_nat i.
Proof.
  intros Hi. unfold range.
  change 0 with (Z.of_nat 0). rewrite map_nth, seq_nth by exact Hi.
  reflexivity.
Qed.

Lemma first_seen_In (l : list string) (x : string) :
  In x (first_seen l) <-> In x l.
Proof.
  unfold first_seen. rewrite <- in_rev, nodup_In, <- in_rev. reflexivity.
Qed.

Lemma first_seen_NoDup (l : list string) : NoDup (first_seen l).
Proof. unfold first_seen. apply NoDup_rev, NoDup_nodup. Qed.

Lemma first_seen_snoc (l : list string) (x : string) :
  first_seen (l ++ [x]) = if in_dec string_dec x l then first_seen l else first_seen l ++ [x].
Proof.
  unfold first_seen. rewrite rev_app_distr. simpl.
  destruct (in_dec string_dec x (rev l)) as [Hin|Hin];
    destruct (in_dec string_dec x l) as [Hin'|Hin']; try reflexivity.
  - exfalso. apply Hin'. now apply in_rev.
  - exfalso. apply Hin. now apply in_rev in Hin'.
Qed.

(** A token seen for the first time after [l] comes after every token of
    [l], and the tokens of [l] keep their places. *)
Lemma first_seen_app (l l' : list string) :
  exists new, first_seen (l ++ l') = first_seen l ++ new.
Proof.
  induction l' as [|x l' IH] using rev_ind.
  - exists []. now rewrite !app_nil_r.
  - destruct IH as [new IH]. rewrite app_assoc, first_seen_snoc, IH.
    destruct (in_dec string_dec x (l ++ l')).
    + now exists new.
    + exists (new ++ [x]). now rewrite app_assoc.
Qed.

(** ** One token of setup *)

Lemma setup_token_eq (index : Z) (token : string) (self : LabelField) :
  setup_token index token self =
  if contains (vocab self) token then
    match getitem (label_count_dict self) token with
    | Some n =>
        (Return index,
         mkLabelField (one_hot self) (multilabel_sep self)
                      (setitem (label_count_dict self) token (n + 1))
                      (tokenizer self) (vocab self))
    | None => (Raise KeyError, self)
    end
  else
    (Return (index + 1),
     mkLabelField (one_hot self) (multilabel_sep self)
                  (setitem (label_count_dict self) token 1)
                  (tokenizer self)
                  (setitem (vocab self) token (index + 1))).
Proof.
  unfold setup_token, bind, this. 
  destruct (contains (vocab self) token); simpl.
  - unfold label_count_getitem, bind, this, lift, subscript.
    destruct (getitem (label_count_dict self) token); reflexivity.
  - reflexivity.
Qed.

(** What every loop of [setup] inherits from its body: a property of the
    object that one token cannot break is not broken by the whole call,
    whether the call returns or raises. *)
Section Preservation.

Variable P : LabelField -> Prop.
Hypothesis P_token :
  forall index token self, P self -> P (after (setup_token index token) self).

Lemma setup_tokens_preserves (tokens : list string) :
  forall index self, P self -> P (after (setup_tokens index tokens) self).
Proof.
  induction tokens as [|token rest IH]; intros index self HP.
  - exact HP.
  - unfold after. simpl. unfold bind.
    specialize (P_token index token self HP). unfold after in P_token.
    destruct (setup_token index token self) as [[index'|e] self']; simpl in *.
    + apply IH, P_token.
    + exact P_token.
Qed.

Lemma setup_examples_preserves (examples : list string) :
  forall index self, P self -> P (after (setup_examples index examples) self).
Proof.
  induction examples as [|example rest IH]; intros index self HP.
  - exact HP.
  - unfold after. simpl. unfold bind, this.
    pose proof (setup_tokens_preserves (tokenizer self example) index self HP) as Ht.
    unfold after in Ht.
    destruct (setup_tokens index (tokenizer self example) self) as [[index'|e] self'];
      simpl in *.
    + apply IH, Ht.
    + exact Ht.
Qed.

Lemma setup_preserves (data : list (option (list string))) (self : LabelField) :
  P self -> P (after (setup data) self).
Proof.
  intros HP. unfold after, setup.
  destruct (examples_of data) as [examples stop]. unfold bind, this.
  pose proof (setup_examples_preserves examples (len (vocab self) - 1) self HP) as He.
  unfold after in He.
  destruct (setup_examples (len (vocab self) - 1) examples self) as [[index|e] self'];
    simpl in *.
  - destruct stop; exact He.
  - exact He.
Qed.

Lemma setup_calls_preserves (calls : list (list (option (list string)))) :
  forall self, P self -> P (setup_calls calls self).
Proof.
  induction calls as [|data calls IH]; intros self HP.
  - exact HP.
  - simpl. apply IH, setup_preserves, HP.
Qed.

End Preservation.

(** ** The lock-step invariant *)

Lemma getitem_In_values {V : Type} (d : dict V) (k : string) (v : V) :
  getitem d k = Some v -> In v (values d).
Proof.
  unfold values.
  induction d as [|[k0 v0] d IH]; simpl; intros E.
  - discriminate.
  - destruct (String.eqb k k0).
    + left. congruence.
    + right. auto.
Qed.

Lemma Forall_values_setitem {V : Type} (Q : V -> Prop) (d : dict V) (k : string) (v : V) :
  Forall Q (values d) -> Q v -> Forall Q (values (setitem d k v)).
Proof.
  unfold values.
  induction d as [|[k0 v0] d IH]; simpl; intros Hd Hv.
  - constructor; auto.
  - inversion Hd as [|? ? H0 Hd']; subst.
    destruct (String.eqb k k0); simpl; constructor; auto.
Qed.

Lemma lockstep_iff (self : LabelField) :
  lockstep self = true <-> lockstep_prop self.
Proof.
  unfold lockstep, lockstep_prop.
  rewrite !andb_true_iff, !forallb_forall, Forall_forall.
  split.
  - intros [[Hvc Hcv] Hpos]. split.
    + intros k.
      destruct (contains (vocab self) k) eqn:Ev.
      * symmetry. apply Hvc, contains_In, Ev.
      * destruct (contains (label_count_dict self) k) eqn:Ec; [|reflexivity].
        rewrite <- Ev. apply Hcv, contains_In, Ec.
    + intros n Hn. apply Z.leb_le, Hpos, Hn.
  - intros [Hsame Hpos]. repeat split.
    + intros k Hk. rewrite <- Hsame. apply contains_In, Hk.
    + intros k Hk. rewrite Hsame. apply contains_In, Hk.
    + intros n Hn. apply Z.leb_le, Hpos, Hn.
Qed.

Lemma setup_token_lockstep (index : Z) (token : string) (self : LabelField) :
  lockstep_prop self -> lockstep_prop (after (setup_token index token) self).
Proof.
  intros [Hsame Hpos]. unfold after. rewrite setup_token_eq.
  destruct (contains (vocab self) token) eqn:Ev.
  - destruct (getitem (label_count_dict self) token) as [n|] eqn:Ec; simpl.
    + split; simpl.
      * intros k. rewrite contains_setitem, Hsame.
        destruct (String.eqb_spec k token) as [->|]; simpl; [|reflexivity].
        now rewrite <- Hsame.
      * apply Forall_values_setitem; [exact Hpos|].
        apply getitem_In_values in Ec.
        rewrite Forall_forall in Hpos. specialize (Hpos n Ec). simpl in Hpos. lia.
    + split; assumption.
  - split; simpl.
    + intros k. rewrite !contains_setitem, Hsame. reflexivity.
    + apply Forall_values_setitem; [exact Hpos | lia].
Qed.

(** ** Ids are never reassigned *)

Lemma setup_token_keeps_id (k : string) (i : Z) (index : Z) (token : string) (self : LabelField) :
  getitem (vocab self) k = Some i ->
  getitem (vocab (after (setup_token index token) self)) k = Some i.
Proof.
  intros Hk. unfold after. rewrite setup_token_eq.
  destruct (contains (vocab self) token) eqn:Ev.
  - destruct (getitem (label_count_dict self) token); exact Hk.
  - simpl. rewrite getitem_setitem.
    destruct (String.eqb_spec k token) as [->|]; [|exact Hk].
    apply contains_false_getitem in Ev. congruence.
Qed.

(** ** process reads, and never writes *)

Lemma TextField_process_eq (example : string) (self : LabelField) :
  TextField_process example self =
  (lookup_tokens (vocab self) (tokenizer self example), self).
Proof. reflexivity. Qed.

Lemma process_eq (example : string) (self : LabelField) :
  process example self =
  (match lookup_tokens (vocab self) (tokenizer self example) with
   | Return n =>
       if one_hot self
       then Return (map (fun i => int_in i n) (range (len (vocab self))))
       else Return n
   | Raise e => Raise e
   end, self).
Proof.
  unfold process, bind. rewrite TextField_process_eq.
  destruct (lookup_tokens (vocab self) (tokenizer self example)); simpl.
  - destruct (one_hot self); reflexivity.
  - reflexivity.
Qed.

(** ** setup tracks the observed tokens *)

Lemma contains_same_keys {V W : Type} (d : dict V) (d' : dict W) (k : string) :
  keys d = keys d' -> contains d k = contains d' k.
Proof.
  intros E.
  destruct (contains d k) eqn:Ed, (contains d' k) eqn:Ed'; try reflexivity.
  - apply contains_In in Ed. rewrite E in Ed. apply contains_In in Ed. congruence.
  - apply contains_In in Ed'. rewrite <- E in Ed'. apply contains_In in Ed'. congruence.
Qed.

Lemma sum_values_setitem (d : dict Z) (k : string) (n v : Z) :
  getitem d k = Some n -> sum (values (setitem d k v)) = sum (values d) - n + v.
Proof.
  unfold values.
  induction d as [|[k0 v0] d IH]; simpl; intros E.
  - discriminate.
  - destruct (String.eqb k k0); simpl.
    + injection E as ->. rewrite !sum_cons. lia.
    + rewrite !sum_cons, IH by exact E. lia.
Qed.

Lemma keys_snoc {V : Type} (d : dict V) (k : string) (v : V) :
  keys (d ++ [(k, v)]) = keys d ++ [k].
Proof. unfold keys. now rewrite map_app. Qed.

Lemma values_snoc {V : Type} (d : dict V) (k : string) (v : V) :
  values (d ++ [(k, v)]) = values d ++ [v].
Proof. unfold values. now rewrite map_app. Qed.

Lemma len_snoc {V : Type} (d : dict V) (kv : string * V) :
  len (d ++ [kv]) = len d + 1.
Proof. unfold len. rewrite length_app. simpl. lia. Qed.

Lemma setup_token_tracks (tok : string -> list string) (toks : list string)
      (self : LabelField) (token : string) :
  tracks tok toks self ->
  exists self',
    setup_token (len (vocab self) - 1) token self = (Return (len (vocab self') - 1), self')
    /\ tracks tok (toks ++ [token]) self'.
Proof.
  intros (Htok & Hkeys & Hids & Hsame & Hsum & Hpos).
  rewrite setup_token_eq.
  pose proof (contains_same_keys (label_count_dict self) (vocab self) token Hsame) as Hc.
  destruct (contains (vocab self) token) eqn:Ev.
  - (* a token seen before: its count goes up by one *)
    assert (Hin : In token toks).
    { apply first_seen_In. rewrite <- Hkeys. apply contains_In, Ev. }
    unfold contains in Hc.
    destruct (getitem (label_count_dict self) token) as [n|] eqn:Ec; [|discriminate].
    match goal with |- exists _, (_, ?s) = _ /\ _ => exists s end.
    split; [reflexivity|].
    unfold tracks; simpl. repeat split.
    + exact Htok.
    + rewrite first_seen_snoc. destruct (in_dec string_dec token toks); tauto.
    + exact Hids.
    + rewrite keys_setitem_old; [exact Hsame|].
      unfold contains. now rewrite Ec.
    + rewrite (sum_values_setitem _ _ n) by exact Ec.
      rewrite Hsum, length_app. simpl. lia.
    + apply Forall_values_setitem; [exact Hpos|].
      apply getitem_In_values in Ec.
      rewrite Forall_forall in Hpos. specialize (Hpos n Ec). simpl in Hpos. lia.
  - (* a new token: next id, count 1 *)
    assert (Hnin : ~ In token toks).
    { intros Hin. apply first_seen_In in Hin. rewrite <- Hkeys in Hin.
      apply contains_In in Hin. congruence. }
    rewrite (setitem_new (vocab self)) by exact Ev.
    rewrite (setitem_new (label_count_dict self)) by exact Hc.
    match goal with |- exists _, (_, ?s) = _ /\ _ => exists s end.
    split.
    + simpl. rewrite len_snoc. do 2 f_equal. lia.
    + unfold tracks; simpl. repeat split.
      * exact Htok.
      * rewrite keys_snoc, Hkeys, first_seen_snoc.
        destruct (in_dec string_dec token toks); tauto.
      * rewrite values_snoc, range_len_snoc, Hids. do 2 f_equal. lia.
      * rewrite !keys_snoc, Hsame. reflexivity.
      * rewrite values_snoc, sum_app, Hsum, length_app. unfold sum. simpl. lia.
      * rewrite values_snoc. apply Forall_app. split; [exact Hpos|].
        constructor; [lia | constructor].
Qed.

Lemma setup_tokens_tracks (tok : string -> list string) (tokens toks : list string) :
  forall self,
    tracks tok toks self ->
    exists self',
      setup_tokens (len (vocab self) - 1) tokens self = (Return (len (vocab self') - 1), self')
      /\ tracks tok (toks ++ tokens) self'.
Proof.
  revert toks. induction tokens as [|token rest IH]; intros toks self Ht.
  - exists self. rewrite app_nil_r. split; [reflexivity | exact Ht].
  - destruct (setup_token_tracks tok toks self token Ht) as (self1 & E1 & Ht1).
    destruct (IH _ _ Ht1) as (self2 & E2 & Ht2).
    exists self2. split.
    + simpl. unfold bind. rewrite E1. exact E2.
    + now rewrite <- app_assoc in Ht2.
Qed.

Lemma setup_examples_tracks (tok : string -> list string) (examples toks : list string) :
  forall self,
    tracks tok toks self ->
    exists self',
      setup_examples (len (vocab self) - 1) examples self = (Return (len (vocab self') - 1), self')
      /\ tracks tok (toks ++ flat_map tok examples) self'.
Proof.
  revert toks. induction examples as [|example rest IH]; intros toks self Ht.
  - exists self. simpl. rewrite app_nil_r. split; [reflexivity | exact Ht].
  - destruct (setup_tokens_tracks tok (tok example) toks self Ht) as (self1 & E1 & Ht1).
    destruct (IH _ _ Ht1) as (self2 & E2 & Ht2).
    exists self2. split.
    + simpl. unfold bind, this.
      destruct Ht as (-> & _). rewrite E1. exact E2.
    + simpl. now rewrite app_assoc.
Qed.

Lemma filter_is_not_None {A : Type} (es : list A) :
  filter (fun _ => true) es = es.
Proof.
  induction es as [|e es IH]; simpl; [reflexivity | now rewrite IH].
Qed.

(** The generator yields the examples of the collections before the first
    absent one, and raises exactly when a collection is absent. *)
Lemma examples_of_eq (data : list (option (list string))) :
  examples_of data =
  (seen_examples data, if existsb (fun d => negb (is_not_None d)) data then Some TypeError else None).
Proof.
  induction data as [|[es|] rest IH]; simpl.
  - reflexivity.
  - rewrite IH, filter_is_not_None. reflexivity.
  - reflexivity.
Qed.

Lemma setup_tracks (tok : string -> list string) (toks : list string)
      (data : list (option (list string))) (self : LabelField) :
  tracks tok toks self ->
  tracks tok (toks ++ flat_map tok (seen_examples data)) (after (setup data) self)
  /\ result (setup data) self =
     if existsb (fun d => negb (is_not_None d)) data then Raise TypeError else Return tt.
Proof.
  intros Ht. unfold after, result, setup. rewrite examples_of_eq.
  destruct (setup_examples_tracks tok (seen_examples data) toks self Ht) as (self' & E & Ht').
  unfold bind, this. rewrite E.
  destruct (existsb _ data); simpl; split; auto.
Qed.

Lemma setup_calls_tracks (tok : string -> list string)
      (calls : list (list (option (list string)))) :
  forall toks self,
    tracks tok toks self ->
    tracks tok (toks ++ observed tok calls) (setup_calls calls self).
Proof.
  induction calls as [|data calls IH]; intros toks self Ht.
  - simpl. now rewrite app_nil_r.
  - simpl. rewrite app_assoc. apply IH, setup_tracks, Ht.
Qed.

Lemma init_tracks (mk : option string -> string -> list string)
      (oh : bool) (sep : option string) :
  tracks (mk sep) [] (__init__ mk oh sep).
Proof.
  unfold tracks; simpl. repeat split; constructor.
Qed.

Lemma reachable_tracks (mk : option string -> string -> list string) (self : LabelField) :
  reachable mk self -> exists tok toks, tracks tok toks self.
Proof.
  induction 1 as [oh sep | self data _ (tok & toks & Ht) | self example _ IH].
  - exists (mk sep), []. apply init_tracks.
  - exists tok, (toks ++ flat_map tok (seen_examples data)).
    apply setup_tracks, Ht.
  - unfold after. rewrite process_eq. exact IH.
Qed.

(** ** Reading the tables back *)

Lemma combine_keys_values {V : Type} (d : dict V) : d = combine (keys d) (values d).
Proof.
  unfold keys, values.
  induction d as [|[k v] d IH]; simpl; [reflexivity | now rewrite <- IH].
Qed.

Lemma In_range (n i : Z) : In i (range n) <-> 0 <= i < n.
Proof.
  unfold range. rewrite in_map_iff. split.
  - intros (j & <- & Hj). apply in_seq in Hj. lia.
  - intros Hi. exists (Z.to_nat i). split; [lia|]. apply in_seq. lia.
Qed.

Lemma comprehension_ext {A B : Type} (f g : A -> outcome B) (l : list A) :
  (forall x, In x l -> f x = g x) -> comprehension f l = comprehension g l.
Proof.
  induction l as [|x l IH]; simpl; intros E.
  - reflexivity.
  - rewrite (E x) by auto. rewrite IH by auto. reflexivity.
Qed.

Lemma comprehension_map {A B : Type} (f : A -> outcome B) (g : A -> B) (l : list A) :
  (forall x, In x l -> f x = Return (g x)) -> comprehension f l = Return (map g l).
Proof.
  induction l as [|x l IH]; simpl; intros E.
  - reflexivity.
  - rewrite (E x) by auto. rewrite IH by auto. reflexivity.
Qed.

Lemma comprehension_subscript_keys {V : Type} (d : dict V) :
  NoDup (keys d) -> comprehension (subscript d) (keys d) = Return (values d).
Proof.
  unfold keys, values.
  induction d as [|[k v] d IH]; simpl; intros Hnd.
  - reflexivity.
  - inversion Hnd as [|? ? Hk Hnd']; subst.
    unfold subscript at 1. simpl. rewrite String.eqb_refl.
    rewrite (comprehension_ext _ (subscript d)).
    + rewrite IH by exact Hnd'. reflexivity.
    + intros x Hx. unfold subscript. simpl.
      destruct (String.eqb_spec x k) as [->|]; [contradiction | reflexivity].
Qed.

Lemma tracks_counts (tok : string -> list string) (toks : list string) (self : LabelField) :
  tracks tok toks self -> counts self = Return (values (label_count_dict self)).
Proof.
  intros (_ & Hkeys & _ & Hsame & _ & _).
  unfold counts. rewrite <- Hsame.
  apply comprehension_subscript_keys.
  rewrite Hsame, Hkeys. apply first_seen_NoDup.
Qed.

Lemma tracks_len (tok : string -> list string) (toks : list string) (self : LabelField) :
  tracks tok toks self -> len (vocab self) = Z.of_nat (List.length (first_seen toks)).
Proof.
  intros (_ & Hkeys & _). unfold len. rewrite <- Hkeys.
  unfold keys. now rewrite length_map.
Qed.

(** A call of [setup] returns only when no supplied collection is absent. *)
Lemma setup_returns_only_without_None (data : list (option (list string))) (self : LabelField) :
  result (setup data) self = Return tt ->
  existsb (fun d => negb (is_not_None d)) data = false.
Proof.
  unfold result, setup. rewrite examples_of_eq. unfold bind, this.
  destruct (setup_examples (len (vocab self) - 1) (seen_examples data) self) as [[index|e] self'];
    simpl; [|discriminate].
  destruct (existsb _ data); [discriminate | reflexivity].
Qed.

(** ** The claims *)

(** C1 (the code departs from the claim).  An absent collection is not
    skipped: the filter [if dataset is not None] of the generator comes after
    the iteration over [dataset], so iterating the absent collection raises
    [TypeError].  With the collections [["cat"]], [None], [["dog"]] the call
    raises after it has recorded "cat", and "dog" is never seen; without the
    absent collection the call returns and records both. *)
Theorem setup_absent_collection_raises :
  result (setup [None]) (__init__ LabelTokenizer false None) = Raise TypeError
  /\ result (setup [Some ["cat"]; None; Some ["dog"]]) (__init__ LabelTokenizer false None)
     = Raise TypeError
  /\ vocab (after (setup [Some ["cat"]; None; Some ["dog"]]) (__init__ LabelTokenizer false None))
     = [("cat", 0)]
  /\ result (setup [Some ["cat"]; Some ["dog"]]) (__init__ LabelTokenizer false None)
     = Return tt
  /\ vocab (after (setup [Some ["cat"]; Some ["dog"]]) (__init__ LabelTokenizer false None))
     = [("cat", 0); ("dog", 1)].
Proof. vm_compute. repeat split. Qed.

(** C2.  After any sequence of [setup] calls on a fresh encoder the
    vocabulary pairs the distinct observed tokens, in first-seen order, with
    the ids 0, 1, ..., n-1; a token has an id exactly when it was observed,
    and that id lies in [0, n-1]; and whatever [setup] calls follow, a token
    keeps the id it has. *)
Theorem setup_vocabulary_dense_first_seen
        (mk : option string -> string -> list string) (oh : bool) (sep : option string)
        (calls : list (list (option (list string)))) :
  vocab (setup_calls calls (__init__ mk oh sep))
  = combine (first_seen (observed (mk sep) calls))
            (range (Z.of_nat (List.length (first_seen (observed (mk sep) calls)))))
  /\ (forall token,
        In token (observed (mk sep) calls) <->
        exists i, getitem (vocab (setup_calls calls (__init__ mk oh sep))) token = Some i
                  /\ 0 <= i < Z.of_nat (List.length (first_seen (observed (mk sep) calls))))
  /\ (forall more token i,
        getitem (vocab (setup_calls calls (__init__ mk oh sep))) token = Some i ->
        getitem (vocab (setup_calls more (setup_calls calls (__init__ mk oh sep)))) token = Some i).
Proof.
  pose proof (setup_calls_tracks (mk sep) calls [] _ (init_tracks mk oh sep)) as Ht.
  simpl in Ht.
  pose proof (tracks_len _ _ _ Ht) as Hlen.
  destruct Ht as (_ & Hkeys & Hids & _).
  set (self := setup_calls calls (__init__ mk oh sep)) in *.
  split; [|split].
  - rewrite (combine_keys_values (vocab self)) at 1.
    now rewrite Hkeys, Hids, Hlen.
  - intros token. rewrite <- Hlen. split.
    + intros Hin. apply first_seen_In in Hin. rewrite <- Hkeys in Hin.
      apply contains_In in Hin. unfold contains in Hin.
      destruct (getitem (vocab self) token) as [i|] eqn:E; [|discriminate].
      exists i. split; [reflexivity|].
      apply getitem_In_values in E. rewrite Hids in E. now apply In_range.
    + intros (i & E & _). apply first_seen_In. rewrite <- Hkeys.
      apply contains_In. unfold contains. now rewrite E.
  - intros more token i E.
    apply (setup_calls_preserves (fun s => getitem (vocab s) token = Some i)); [|exact E].
    intros index t s. apply setup_token_keeps_id.
Qed.

(** C3.  After any sequence of [setup] calls on a fresh encoder,
    [label_count] returns, and its entries add up to the number of tokens
    observed, repetitions counted. *)
Theorem label_count_sums_to_observed
        (mk : option string -> string -> list string) (oh : bool) (sep : option string)
        (calls : list (list (option (list string)))) :
  exists cs,
    label_count (setup_calls calls (__init__ mk oh sep)) = Return cs
    /\ sum cs = Z.of_nat (List.length (observed (mk sep) calls)).
Proof.
  pose proof (setup_calls_tracks (mk sep) calls [] _ (init_tracks mk oh sep)) as Ht.
  simpl in Ht.
  exists (values (label_count_dict (setup_calls calls (__init__ mk oh sep)))).
  split.
  - unfold label_count. apply (tracks_counts _ _ _ Ht).
  - now destruct Ht as (_ & _ & _ & _ & Hsum & _).
Qed.

(** C4.  The vocabulary and the count table have the same keys and every
    count is at least 1: this holds for a fresh encoder, every [setup] call
    keeps it (also one that raises), and [process] keeps it. *)
Theorem lockstep_invariant :
  (forall mk oh sep, lockstep (__init__ mk oh sep) = true)
  /\ (forall data self, lockstep self = true -> lockstep (after (setup data) self) = true)
  /\ (forall example self, lockstep self = true -> lockstep (after (process example) self) = true).
Proof.
  split; [|split].
  - reflexivity.
  - intros data self H. apply lockstep_iff. apply lockstep_iff in H.
    revert H. apply setup_preserves. intros index token s. apply setup_token_lockstep.
  - intros example self H. unfold after. now rewrite process_eq.
Qed.

(** ** Looking tokens up *)

Lemma lookup_tokens_known (v : dict Z) (tokens : list string) :
  (forall token, In token tokens -> contains v token = true) ->
  exists ids, lookup_tokens v tokens = Return ids.
Proof.
  unfold lookup_tokens.
  induction tokens as [|token rest IH]; simpl; intros Hall.
  - now exists [].
  - pose proof (Hall token (or_introl eq_refl)) as Ht.
    unfold contains in Ht. unfold subscript at 1.
    destruct (getitem v token) as [i|]; [|discriminate].
    destruct IH as (ids & ->); [auto|].
    now exists (i :: ids).
Qed.

Lemma lookup_tokens_unknown (v : dict Z) (tokens : list string) (token : string) :
  In token tokens -> contains v token = false ->
  lookup_tokens v tokens = Raise KeyError.
Proof.
  unfold lookup_tokens. intros Hin Hc. apply contains_false_getitem in Hc.
  induction tokens as [|t rest IH]; simpl.
  - contradiction.
  - unfold subscript at 1.
    destruct (getitem v t) as [i|] eqn:E; [|reflexivity].
    destruct Hin as [->|Hin]; [congruence|].
    now rewrite IH.
Qed.

Lemma int_in_spec (i : Z) (n : list Z) :
  (In i n -> int_in i n = 1) /\ (~ In i n -> int_in i n = 0).
Proof.
  unfold int_in.
  destruct (existsb (Z.eqb i) n) eqn:E.
  - apply existsb_exists in E. destruct E as (j & Hj & Eij).
    apply Z.eqb_eq in Eij. subst j. split; [reflexivity | contradiction].
  - split; [|reflexivity].
    intros Hin. assert (existsb (Z.eqb i) n = true) as E'.
    { apply existsb_exists. exists i. split; [exact Hin | apply Z.eqb_refl]. }
    congruence.
Qed.

(** C5.  For an example whose tokens are all in the vocabulary: if the
    encoder with [one_hot = False] yields the ids [s], the encoder with
    [one_hot = True] and the same vocabulary yields a vector as long as the
    vocabulary, with 1 at every position that occurs in [s] and 0 at every
    other position. *)
Theorem process_one_hot_marks_ids (self : LabelField) (example : string) (s : list Z) :
  (forall token, In token (tokenizer self example) -> contains (vocab self) token = true) ->
  result (process example) (with_one_hot false self) = Return s ->
  exists v,
    result (process example) (with_one_hot true self) = Return v
    /\ List.length v = List.length (vocab self)
    /\ forall i, (i < List.length (vocab self))%nat ->
         (In (Z.of_nat i) s -> nth i v 0 = 1) /\ (~ In (Z.of_nat i) s -> nth i v 0 = 0).
Proof.
  intros Hknown. unfold result. rewrite !process_eq. simpl.
  destruct (lookup_tokens (vocab self) (tokenizer self example)) as [n|e]; [|discriminate].
  intros E. injection E as ->.
  eexists. split; [reflexivity|]. split.
  - rewrite length_map, length_range. unfold len. apply Nat2Z.id.
  - intros i Hi.
    assert (Hnth : nth i (map (fun j => int_in j s) (range (len (vocab self)))) 0
                   = int_in (Z.of_nat i) s).
    { rewrite (nth_indep _ 0 (int_in 0 s)).
      - rewrite (map_nth (fun j => int_in j s)), nth_range; [reflexivity|].
        unfold len. now rewrite Nat2Z.id.
      - rewrite length_map, length_range. unfold len. now rewrite Nat2Z.id. }
    rewrite Hnth. apply int_in_spec.
Qed.

(** C8.  An example with a token that is not in the vocabulary makes
    [process] raise the lookup error of the mapping access, for either output
    shape; it returns nothing, so no default id either. *)
Theorem process_unknown_token_raises (self : LabelField) (example token : string) :
  In token (tokenizer self example) ->
  contains (vocab self) token = false ->
  result (process example) self = Raise KeyError
  /\ forall n, result (process example) self <> Return n.
Proof.
  intros Hin Hc.
  assert (E : result (process example) self = Raise KeyError).
  { unfold result. rewrite process_eq. simpl.
    now rewrite (lookup_tokens_unknown _ _ token Hin Hc). }
  split; [exact E|]. intros n. rewrite E. discriminate.
Qed.

(** C9.  [process] leaves the object as it found it, whether it returns or
    raises, and what it returns or raises is determined by the vocabulary,
    the tokenizer, the output shape and the example: the count table and the
    rest of the object play no part. *)
Theorem process_is_read_only (self : LabelField) (example : string) :
  after (process example) self = self
  /\ forall self',
       vocab self' = vocab self ->
       tokenizer self' = tokenizer self ->
       one_hot self' = one_hot self ->
       result (process example) self' = result (process example) self.
Proof.
  split.
  - unfold after. now rewrite process_eq.
  - intros self' Ev Et Eo. unfold result. rewrite !process_eq. simpl.
    now rewrite Ev, Et, Eo.
Qed.

(** C10.  On a fresh encoder the three statistics return the empty
    sequence, in every arithmetic of tensor entries: the quotient by the
    total, which is 0, is taken over no entry at all. *)
Theorem statistics_of_fresh_encoder
        (F : Type) (arith : TensorArith F)
        (mk : option string -> string -> list string) (oh : bool) (sep : option string) :
  label_count (__init__ mk oh sep) = Return []
  /\ label_freq (__init__ mk oh sep) = Return (@nil F)
  /\ label_inv_freq (__init__ mk oh sep) = Return (@nil F)
  /\ sum [] = 0.
Proof. repeat split. Qed.

(** ** Frequencies over the rationals *)

Lemma inject_Z_nonzero (n : Z) : n <> 0 -> Qeq_bool (inject_Z n) 0 = false.
Proof.
  intros Hn. destruct (Qeq_bool (inject_Z n) 0) eqn:E; [|reflexivity].
  apply Qeq_bool_eq in E. unfold Qeq in E. simpl in E. lia.
Qed.

Lemma quotient_nonzero (c t : Z) : 1 <= c -> 1 <= t -> ~ (inject_Z c / inject_Z t == 0)%Q.
Proof.
  intros Hc Ht.
  destruct t as [|p|p]; try lia.
  unfold Qeq, Qdiv, Qmult, Qinv. simpl. lia.
Qed.

Lemma Qsum_shift (l : list Q) (a : Q) :
  (fold_left Qplus l a == a + fold_left Qplus l 0)%Q.
Proof.
  revert a. induction l as [|x l IH]; intros a; simpl.
  - ring.
  - rewrite (IH (a + x)%Q), (IH (0 + x)%Q). ring.
Qed.

Lemma Qsum_cons (x : Q) (l : list Q) : (Qsum (x :: l) == x + Qsum l)%Q.
Proof.
  unfold Qsum. simpl. rewrite Qsum_shift. ring.
Qed.

Lemma Qsum_quotients (cs : list Z) (t : Q) :
  (Qsum (map (fun x => x / t) (map inject_Z cs)) == inject_Z (sum cs) / t)%Q.
Proof.
  induction cs as [|c cs IH].
  - unfold Qsum, sum, Qdiv. simpl. ring.
  - simpl map. rewrite Qsum_cons, IH, sum_cons, inject_Z_plus.
    unfold Qdiv. ring.
Qed.

(** On a tracked state with a non-empty vocabulary both statistics return,
    entry by entry the exact quotients. *)
Lemma tracks_total_positive (tok : string -> list string) (toks : list string) (self : LabelField) :
  tracks tok toks self -> vocab self <> [] ->
  1 <= sum (values (label_count_dict self)).
Proof.
  intros (_ & _ & _ & Hsame & _ & Hpos) Hne.
  pose proof (sum_ge _ Hpos) as Hge.
  assert (List.length (values (label_count_dict self)) = List.length (vocab self)) as El.
  { apply (f_equal (@List.length string)) in Hsame.
    unfold keys in Hsame. unfold values. now rewrite !length_map in *. }
  rewrite El in Hge.
  destruct (vocab self); [contradiction | simpl in Hge; lia].
Qed.

Lemma tracks_label_freq (tok : string -> list string) (toks : list string) (self : LabelField) :
  tracks tok toks self -> vocab self <> [] ->
  label_freq self
  = Return (map (fun x => x / inject_Z (sum (values (label_count_dict self))))%Q
                (map inject_Z (values (label_count_dict self)))).
Proof.
  intros Ht Hne. unfold label_freq.
  rewrite (tracks_counts _ _ _ Ht). unfold tensor_div_scalar.
  apply comprehension_map. intros x _. unfold divide. simpl.
  rewrite inject_Z_nonzero; [reflexivity|].
  pose proof (tracks_total_positive _ _ _ Ht Hne). lia.
Qed.

Lemma tracks_freq_nonzero (tok : string -> list string) (toks : list string) (self : LabelField) (x : Q) :
  tracks tok toks self -> vocab self <> [] ->
  In x (map (fun x => x / inject_Z (sum (values (label_count_dict self))))%Q
            (map inject_Z (values (label_count_dict self)))) ->
  ~ (x == 0)%Q.
Proof.
  intros Ht Hne Hin.
  pose proof (tracks_total_positive _ _ _ Ht Hne) as Htot.
  destruct Ht as (_ & _ & _ & _ & _ & Hpos).
  rewrite map_map in Hin. apply in_map_iff in Hin. destruct Hin as (c & <- & Hc).
  rewrite Forall_forall in Hpos.
  apply quotient_nonzero; [apply Hpos, Hc | exact Htot].
Qed.

(** In any arithmetic: when both statistics return, they are equally long
    and each entry of [label_inv_freq] is the quotient of 1 by the entry of
    [label_freq] at the same position. *)
Lemma label_inv_freq_entries (F : Type) (arith : TensorArith F)
      (self : LabelField) (freq inv : list F) :
  label_freq self = Return freq ->
  label_inv_freq self = Return inv ->
  Forall2 (fun f r => true_divide (of_int 1) f = Some r) freq inv.
Proof.
  intros Ef. unfold label_inv_freq. rewrite Ef. unfold scalar_div_tensor. clear Ef.
  revert inv. induction freq as [|f freq IH]; simpl; intros inv E.
  - injection E as <-. constructor.
  - unfold divide at 1 in E.
    destruct (true_divide (of_int 1) f) as [r|] eqn:Er; [|discriminate].
    destruct (comprehension (fun x => divide (of_int 1) x) freq) as [rs|e]; [|discriminate].
    injection E as <-. constructor; [exact Er | now apply IH].
Qed.

(** C6.  In every state an encoder reaches with a non-empty vocabulary,
    [label_freq] and [label_inv_freq] return one entry per vocabulary id, no
    frequency is zero, and the entry of [label_inv_freq] at each id is 1
    divided by the entry of [label_freq] at that id. *)
Theorem label_inv_freq_is_reciprocal
        (mk : option string -> string -> list string) (self : LabelField) :
  reachable mk self ->
  vocab self <> [] ->
  exists freq inv : list Q,
    label_freq self = Return freq
    /\ label_inv_freq self = Return inv
    /\ List.length freq = List.length (vocab self)
    /\ List.length inv = List.length (vocab self)
    /\ forall i, (i < List.length (vocab self))%nat ->
         ~ (nth i freq 0 == 0)%Q /\ nth i inv 0%Q = (1 / nth i freq 0)%Q.
Proof.
  intros Hr Hne. destruct (reachable_tracks mk self Hr) as (tok & toks & Ht).
  pose proof (tracks_label_freq _ _ _ Ht Hne) as Ef.
  pose proof (tracks_freq_nonzero tok toks self) as Hnz.
  set (freq := map _ _) in *.
  assert (Ei : label_inv_freq self = Return (map (fun x => 1 / x)%Q freq)).
  { unfold label_inv_freq. rewrite Ef. unfold scalar_div_tensor.
    apply comprehension_map. intros x Hx. unfold divide. simpl.
    destruct (Qeq_bool x 0) eqn:E; [|reflexivity].
    apply Qeq_bool_eq in E. exfalso. exact (Hnz x Ht Hne Hx E). }
  assert (El : List.length freq = List.length (vocab self)).
  { subst freq. unfold values. rewrite !length_map.
    destruct Ht as (_ & _ & _ & Hsame & _).
    apply (f_equal (@List.length string)) in Hsame.
    unfold keys in Hsame. now rewrite !length_map in Hsame. }
  exists freq, (map (fun x => 1 / x)%Q freq).
  split; [exact Ef|]. split; [exact Ei|]. split; [exact El|].
  split; [now rewrite length_map|].
  intros i Hi. rewrite <- El in Hi. split.
  - apply (Hnz _ Ht Hne). now apply nth_In.
  - rewrite (nth_indep _ 0%Q ((fun x => 1 / x)%Q 0%Q)) by now rewrite length_map.
    apply (map_nth (fun x => 1 / x)%Q).
Qed.

Lemma sum_ge_entry (l : list Z) (c : Z) :
  Forall (fun n => 1 <= n) l -> In c l -> c <= sum l.
Proof.
  induction 1 as [|x l Hx Hl IH]; intros Hin.
  - contradiction.
  - rewrite sum_cons. pose proof (sum_ge l Hl) as Hs.
    destruct Hin as [->|Hin]; [lia | specialize (IH Hin); lia].
Qed.

Lemma quotient_bounds (c t : Z) :
  1 <= c -> c <= t ->
  (0 < inject_Z c / inject_Z t)%Q
  /\ (inject_Z c / inject_Z t <= 1)%Q
  /\ (1 <= 1 / (inject_Z c / inject_Z t))%Q.
Proof.
  intros Hc Ht.
  destruct c as [|pc|pc]; try lia. destruct t as [|pt|pt]; try lia.
  unfold Qlt, Qle, Qdiv, Qmult, Qinv. simpl. lia.
Qed.

(** C7.  In every state an encoder reaches with a non-empty vocabulary,
    [label_freq] is a probability distribution over the labels: it returns
    one entry per vocabulary id, the entry at each id is, over the rationals,
    the entry of [label_count] at that id divided by the sum of
    [label_count], every entry is greater than 0 and at most 1, and the
    entries add up to 1. *)
Theorem label_freq_sums_to_one
        (mk : option string -> string -> list string) (self : LabelField) :
  reachable mk self ->
  vocab self <> [] ->
  exists (cs : list Z) (freq : list Q),
    label_count self = Return cs
    /\ label_freq self = Return freq
    /\ freq = map (fun c => inject_Z c / inject_Z (sum cs))%Q cs
    /\ List.length freq = List.length (vocab self)
    /\ Forall (fun f => 0 < f /\ f <= 1)%Q freq
    /\ (Qsum freq == 1)%Q.
Proof.
  intros Hr Hne. destruct (reachable_tracks mk self Hr) as (tok & toks & Ht).
  pose proof (tracks_total_positive _ _ _ Ht Hne) as Htot.
  exists (values (label_count_dict self)).
  exists (map (fun c => inject_Z c / inject_Z (sum (values (label_count_dict self))))%Q
              (values (label_count_dict self))).
  split; [apply (tracks_counts _ _ _ Ht)|].
  split; [rewrite (tracks_label_freq _ _ _ Ht Hne); now rewrite map_map|].
  split; [reflexivity|].
  destruct Ht as (_ & _ & _ & Hsame & _ & Hpos).
  split; [|split].
  - rewrite length_map. apply (f_equal (@List.length string)) in Hsame.
    unfold keys in Hsame. unfold values. now rewrite !length_map in *.
  - apply Forall_forall. intros f Hf.
    apply in_map_iff in Hf. destruct Hf as (c & <- & Hc).
    assert (H1 : 1 <= c) by (rewrite Forall_forall in Hpos; apply Hpos, Hc).
    assert (H2 : c <= sum (values (label_count_dict self))) by (apply sum_ge_entry; assumption).
    destruct (quotient_bounds c _ H1 H2) as (H0 & Hle & _). split; assumption.
  - rewrite <- (map_map inject_Z (fun x => x / inject_Z (sum (values (label_count_dict self))))%Q).
    rewrite Qsum_quotients. apply Qmult_inv_r.
    unfold Qeq. simpl. lia.
Qed.

(** ** The theorems at concrete encoders *)

Lemma setup_vocabulary_dense_first_seen_witness :
  getitem (vocab (setup_calls [[Some ["cat"; "dog"; "cat"]]] (__init__ LabelTokenizer false None)))
          "dog" = Some 1
  /\ getitem (vocab (setup_calls [[Some ["fish"]; None]]
                (setup_calls [[Some ["cat"; "dog"; "cat"]]] (__init__ LabelTokenizer false None))))
             "dog" = Some 1.
Proof.
  split; [reflexivity|].
  apply (proj2 (proj2 (setup_vocabulary_dense_first_seen
                         LabelTokenizer false None [[Some ["cat"; "dog"; "cat"]]]))).
  reflexivity.
Defined.

Lemma lockstep_invariant_witness :
  lockstep (__init__ LabelTokenizer true (Some "|")) = true
  /\ lockstep (after (setup [Some ["cat|dog"; "cat"]; None])
                     (__init__ LabelTokenizer true (Some "|"))) = true.
Proof.
  split; [reflexivity|].
  apply (proj1 (proj2 lockstep_invariant)). reflexivity.
Defined.

Lemma process_one_hot_marks_ids_witness :
  result (process "bird|cat") (with_one_hot false (enc (Some "|") [[Some ["cat|dog"; "bird"]]]))
  = Return [2; 0]
  /\ exists v,
       result (process "bird|cat") (with_one_hot true (enc (Some "|") [[Some ["cat|dog"; "bird"]]]))
       = Return v
       /\ List.length v = 3%nat
       /\ forall i, (i < 3)%nat ->
            (In (Z.of_nat i) [2; 0] -> nth i v 0 = 1)
            /\ (~ In (Z.of_nat i) [2; 0] -> nth i v 0 = 0).
Proof.
  split; [reflexivity|].
  apply (process_one_hot_marks_ids (enc (Some "|") [[Some ["cat|dog"; "bird"]]]) "bird|cat" [2; 0]).
  - intros token [<-|[<-|[]]]; reflexivity.
  - reflexivity.
Defined.

Lemma label_inv_freq_is_reciprocal_witness :
  vocab (enc None [[Some ["cat"; "dog"; "cat"]]]) <> []
  /\ exists freq inv : list Q,
       label_freq (enc None [[Some ["cat"; "dog"; "cat"]]]) = Return freq
       /\ label_inv_freq (enc None [[Some ["cat"; "dog"; "cat"]]]) = Return inv
       /\ List.length freq = 2%nat
       /\ List.length inv = 2%nat
       /\ forall i, (i < 2)%nat ->
            ~ (nth i freq 0 == 0)%Q /\ nth i inv 0%Q = (1 / nth i freq 0)%Q.
Proof.
  assert (Hne : vocab (enc None [[Some ["cat"; "dog"; "cat"]]]) <> []) by (vm_compute; discriminate).
  split; [exact Hne|].
  apply (label_inv_freq_is_reciprocal LabelTokenizer (enc None [[Some ["cat"; "dog"; "cat"]]])).
  - exact (reach_setup _ _ _ (reach_init _ _ _)).
  - exact Hne.
Defined.

Lemma label_freq_sums_to_one_witness :
  vocab (enc (Some "|") [[Some ["cat|dog"; "cat"]]; [Some ["bird"]]]) <> []
  /\ exists (cs : list Z) (freq : list Q),
       label_count (enc (Some "|") [[Some ["cat|dog"; "cat"]]; [Some ["bird"]]]) = Return cs
       /\ label_freq (enc (Some "|") [[Some ["cat|dog"; "cat"]]; [Some ["bird"]]]) = Return freq
       /\ freq = map (fun c => inject_Z c / inject_Z (sum cs))%Q cs
       /\ List.length freq
          = List.length (vocab (enc (Some "|") [[Some ["cat|dog"; "cat"]]; [Some ["bird"]]]))
       /\ Forall (fun f => 0 < f /\ f <= 1)%Q freq
       /\ (Qsum freq == 1)%Q.
Proof.
  assert (Hne : vocab (enc (Some "|") [[Some ["cat|dog"; "cat"]]; [Some ["bird"]]]) <> [])
    by (vm_compute; discriminate).
  split; [exact Hne|].
  apply (label_freq_sums_to_one LabelTokenizer
           (enc (Some "|") [[Some ["cat|dog"; "cat"]]; [Some ["bird"]]])).
  - exact (reach_setup _ _ _ (reach_setup _ _ _ (reach_init _ _ _))).
  - exact Hne.
Defined.

Lemma process_unknown_token_raises_witness :
  result (process "cat|bird") (enc (Some "|") [[Some ["cat|dog"]]]) = Raise KeyError
  /\ forall n, result (process "cat|bird") (enc (Some "|") [[Some ["cat|dog"]]]) <> Return n.
Proof.
  apply (process_unknown_token_raises (enc (Some "|") [[Some ["cat|dog"]]]) "cat|bird" "bird").
  - simpl. right. left. reflexivity.
  - reflexivity.
Defined.

Lemma process_is_read_only_witness :
  result (process "dog")
         (mkLabelField false (Some "|") [] (LabelTokenizer None) [("cat", 0); ("dog", 1)])
  = result (process "dog") (enc None [[Some ["cat"; "dog"; "cat"]]]).
Proof.
  apply (proj2 (process_is_read_only (enc None [[Some ["cat"; "dog"; "cat"]]]) "dog"));
    reflexivity.
Defined.

(** * Further properties of the encoder *)

(** ** setup as one pass over the token stream *)

Lemma setup_token_tokenizer (index : Z) (token : string) (self : LabelField) :
  tokenizer (after (setup_token index token) self) = tokenizer self.
Proof.
  unfold after. rewrite setup_token_eq.
  destruct (contains (vocab self) token); [|reflexivity].
  destruct (getitem (label_count_dict self) token); reflexivity.
Qed.

Lemma setup_tokens_tokenizer (index : Z) (tokens : list string) (self : LabelField) :
  tokenizer (after (setup_tokens index tokens) self) = tokenizer self.
Proof.
  apply (setup_tokens_preserves (fun s => tokenizer s = tokenizer self)); [|reflexivity].
  intros i t s E. now rewrite setup_token_tokenizer.
Qed.

Lemma setup_tokens_app (tokens more : list string) :
  forall index self,
    setup_tokens index (tokens ++ more) self
    = bind (setup_tokens index tokens) (fun index' => setup_tokens index' more) self.
Proof.
  induction tokens as [|token rest IH]; intros index self.
  - reflexivity.
  - simpl. unfold bind.
    destruct (setup_token index token self) as [[index'|e] self']; [|reflexivity].
    rewrite IH. reflexivity.
Qed.

Lemma setup_examples_stream (examples : list string) :
  forall index self,
    setup_examples index examples self
    = setup_tokens index (flat_map (tokenizer self) examples) self.
Proof.
  induction examples as [|example rest IH]; intros index self.
  - reflexivity.
  - simpl. rewrite setup_tokens_app. unfold bind, this.
    pose proof (setup_tokens_tokenizer index (tokenizer self example) self) as Et.
    unfold after in Et.
    destruct (setup_tokens index (tokenizer self example) self) as [[index'|e] self'];
      [|reflexivity].
    simpl in Et. rewrite IH, Et. reflexivity.
Qed.

(** The whole call: one pass of the loop body over the token stream, and
    after it the [TypeError] of the generator if a collection is absent. *)
Lemma setup_stream (data : list (option (list string))) (self : LabelField) :
  setup data self =
  match setup_tokens (len (vocab self) - 1) (token_stream self data) self with
  | (Return _, self') => (if has_None data then Raise TypeError else Return tt, self')
  | (Raise e, self') => (Raise e, self')
  end.
Proof.
  unfold setup, token_stream, has_None. rewrite examples_of_eq. unfold bind, this.
  rewrite setup_examples_stream.
  destruct (setup_tokens _ _ self) as [[index|e] self']; [|reflexivity].
  destruct (existsb _ data); reflexivity.
Qed.

(** While the two tables are in lock-step the loop cannot raise, and the
    local [index] stays the last id of the vocabulary. *)
Lemma setup_token_lockstep_returns (token : string) (self : LabelField) :
  lockstep_prop self ->
  exists self',
    setup_token (len (vocab self) - 1) token self = (Return (len (vocab self') - 1), self')
    /\ lockstep_prop self'.
Proof.
  intros Hl.
  pose proof (setup_token_lockstep (len (vocab self) - 1) token self Hl) as Hl'.
  unfold after in Hl'. rewrite setup_token_eq in *.
  destruct Hl as [Hsame Hpos].
  destruct (contains (vocab self) token) eqn:Ev.
  - pose proof (Hsame token) as Hc. rewrite Ev in Hc. unfold contains in Hc.
    destruct (getitem (label_count_dict self) token) as [n|]; [|discriminate].
    match goal with |- exists _, (_, ?s) = _ /\ _ => exists s end.
    split; [reflexivity | exact Hl'].
  - match goal with |- exists _, (_, ?s) = _ /\ _ => exists s end.
    split; [|exact Hl'].
    simpl. rewrite (setitem_new (vocab self)) by exact Ev.
    rewrite len_snoc. do 2 f_equal. lia.
Qed.

Lemma setup_tokens_lockstep_returns (tokens : list string) :
  forall self,
    lockstep_prop self ->
    exists self',
      setup_tokens (len (vocab self) - 1) tokens self = (Return (len (vocab self') - 1), self')
      /\ lockstep_prop self'.
Proof.
  induction tokens as [|token rest IH]; intros self Hl.
  - exists self. split; [reflexivity | exact Hl].
  - destruct (setup_token_lockstep_returns token self Hl) as (self1 & E1 & Hl1).
    destruct (IH self1 Hl1) as (self2 & E2 & Hl2).
    exists self2. split; [|exact Hl2].
    simpl. unfold bind. rewrite E1. exact E2.
Qed.

Lemma seen_examples_present_prefix (data : list (option (list string))) :
  seen_examples (present_prefix data) = seen_examples data.
Proof.
  induction data as [|[es|] rest IH]; simpl; [reflexivity | now rewrite IH | reflexivity].
Qed.

Lemma has_None_present_prefix (data : list (option (list string))) :
  has_None (present_prefix data) = false.
Proof.
  unfold has_None. induction data as [|[es|] rest IH]; simpl; auto.
Qed.

Lemma seen_examples_app (data more : list (option (list string))) :
  has_None data = false ->
  seen_examples (data ++ more) = seen_examples data ++ seen_examples more.
Proof.
  unfold has_None. induction data as [|[es|] rest IH]; simpl; intros E.
  - reflexivity.
  - rewrite IH by exact E. now rewrite app_assoc.
  - discriminate.
Qed.

(** ** Outcome of setup *)

(** X1.  From an object whose tables are in lock-step, [setup] returns when
    every collection is present and raises [TypeError] when one is absent;
    either way it leaves the object as a call on the collections before the
    first absent one does. *)
Theorem setup_outcome (data : list (option (list string))) (self : LabelField) :
  lockstep self = true ->
  result (setup data) self = (if has_None data then Raise TypeError else Return tt)
  /\ after (setup data) self = after (setup (present_prefix data)) self.
Proof.
  intros Hl. apply lockstep_iff in Hl.
  unfold result, after. rewrite !setup_stream.
  unfold token_stream. rewrite seen_examples_present_prefix, has_None_present_prefix.
  destruct (setup_tokens_lockstep_returns
              (flat_map (tokenizer self) (seen_examples data)) self Hl) as (self' & E & _).
  rewrite E. split; reflexivity.
Qed.

(** X2.  [setup] depends on its collections only through the tokens they
    yield in order and through whether one of them is absent: how the
    examples are grouped into collections makes no difference to the object
    or to the outcome. *)
Theorem setup_depends_on_token_stream
        (data data' : list (option (list string))) (self : LabelField) :
  token_stream self data = token_stream self data' ->
  has_None data = has_None data' ->
  setup data self = setup data' self.
Proof.
  intros Es En. rewrite !setup_stream, Es, En. reflexivity.
Qed.

(** X3.  From an object in lock-step, one [setup] call on the collections
    [data] followed by [more] does what a call on [data] followed by a call
    on [more] does, when no collection of [data] is absent: the numbering
    goes on where the first call stopped. *)
Theorem setup_concatenation
        (data more : list (option (list string))) (self : LabelField) :
  lockstep self = true ->
  has_None data = false ->
  result (setup data) self = Return tt
  /\ setup (data ++ more) self = setup more (after (setup data) self).
Proof.
  intros Hl Hn. apply lockstep_iff in Hl.
  destruct (setup_tokens_lockstep_returns (token_stream self data) self Hl) as (self1 & E1 & _).
  pose proof (setup_tokens_tokenizer (len (vocab self) - 1) (token_stream self data) self) as Et.
  unfold after in Et. rewrite E1 in Et. simpl in Et.
  assert (Ea : setup data self = (Return tt, self1)).
  { rewrite setup_stream, E1, Hn. reflexivity. }
  split.
  - unfold result. now rewrite Ea.
  - unfold after. rewrite Ea. simpl.
    rewrite (setup_stream (data ++ more)), (setup_stream more).
    unfold token_stream in *. rewrite seen_examples_app by exact Hn.
    rewrite flat_map_app, setup_tokens_app. unfold bind. rewrite E1, Et.
    unfold has_None in *. rewrite existsb_app, Hn. reflexivity.
Qed.

Lemma setup_tokens_missing_count (t : string) (tokens : list string) :
  forall index self,
    In t tokens ->
    contains (vocab self) t = true ->
    getitem (label_count_dict self) t = None ->
    fst (setup_tokens index tokens self) = Raise KeyError.
Proof.
  induction tokens as [|h rest IH]; intros index self Hin Hv Hc.
  - contradiction.
  - simpl. unfold bind. rewrite setup_token_eq.
    destruct (String.eqb_spec t h) as [<-|Hne].
    + rewrite Hv, Hc. reflexivity.
    + destruct Hin as [E|Hin]; [congruence|].
      assert (Eb : String.eqb t h = false) by now apply String.eqb_neq.
      destruct (contains (vocab self) h) eqn:Eh.
      * destruct (getitem (label_count_dict self) h) as [n|]; [|reflexivity].
        apply IH; simpl; auto.
        now rewrite getitem_setitem, Eb.
      * apply IH; simpl; auto.
        -- now rewrite contains_setitem, Hv, orb_true_r.
        -- now rewrite getitem_setitem, Eb.
Qed.

(** X4.  If a token of the stream is in the vocabulary but has no entry in
    the count table, [setup] raises the [KeyError] of the increment on
    line 62, wherever in the stream the token stands. *)
Theorem setup_missing_count_raises
        (data : list (option (list string))) (self : LabelField) (token : string) :
  In token (token_stream self data) ->
  contains (vocab self) token = true ->
  getitem (label_count_dict self) token = None ->
  result (setup data) self = Raise KeyError.
Proof.
  intros Hin Hv Hc. unfold result. rewrite setup_stream.
  pose proof (setup_tokens_missing_count token _ (len (vocab self) - 1) self Hin Hv Hc) as E.
  destruct (setup_tokens _ _ self) as [[index|e] self']; simpl in E.
  - discriminate.
  - injection E as ->. reflexivity.
Qed.

(** X5.  [setup] only ever appends to the vocabulary, from any object and
    whatever the outcome: the entries present before the call are still the
    first entries after it, in the same order and with the same ids.  And it
    never lowers the count of a token of the vocabulary: a vocabulary token
    that had a count still has one, at least as large. *)
Theorem setup_only_grows (data : list (option (list string))) (self : LabelField) :
  (exists new, vocab (after (setup data) self) = vocab self ++ new)
  /\ (forall k n,
        contains (vocab self) k = true ->
        getitem (label_count_dict self) k = Some n ->
        exists n', getitem (label_count_dict (after (setup data) self)) k = Some n' /\ n <= n').
Proof.
  split.
  - apply (setup_preserves (fun s => exists new, vocab s = vocab self ++ new)).
    + intros index token s (new & E). unfold after. rewrite setup_token_eq.
      destruct (contains (vocab s) token) eqn:Ev.
      * destruct (getitem (label_count_dict s) token); now exists new.
      * simpl. rewrite setitem_new by exact Ev.
        exists (new ++ [(token, index + 1)]). now rewrite E, app_assoc.
    + exists []. now rewrite app_nil_r.
  - intros k n Hv Hk.
    assert (H : contains (vocab (after (setup data) self)) k = true
                /\ exists n', getitem (label_count_dict (after (setup data) self)) k = Some n'
                              /\ n <= n').
    { apply (setup_preserves
               (fun s => contains (vocab s) k = true
                         /\ exists n', getitem (label_count_dict s) k = Some n' /\ n <= n')).
      - intros index token s (Hvs & n' & E & Hn). unfold after. rewrite setup_token_eq.
        destruct (contains (vocab s) token) eqn:Ev.
        + destruct (getitem (label_count_dict s) token) as [m|] eqn:Em; simpl.
          * split; [exact Hvs|]. rewrite getitem_setitem.
            destruct (String.eqb_spec k token) as [->|].
            -- exists (m + 1). split; [reflexivity|].
               assert (m = n') by congruence. lia.
            -- now exists n'.
          * split; [exact Hvs | now exists n'].
        + simpl. split.
          * now rewrite contains_setitem, Hvs, orb_true_r.
          * rewrite getitem_setitem.
            destruct (String.eqb_spec k token) as [->|]; [congruence | now exists n'].
      - split; [exact Hv|]. exists n. split; [exact Hk | lia]. }
    exact (proj2 H).
Qed.

(** ** Ids are positions *)

Lemma getitem_position_from {V : Type} (d : dict Z) :
  forall (a : nat) (k : string) (i : Z),
    values d = map Z.of_nat (seq a (List.length d)) ->
    getitem d k = Some i ->
    exists j, i = Z.of_nat (a + j) /\ nth_error (keys d) j = Some k.
Proof.
  unfold values, keys.
  induction d as [|[k0 v0] d IH]; simpl; intros a k i Hv Hk.
  - discriminate.
  - injection Hv as Hv0 Hv.
    destruct (String.eqb_spec k k0) as [->|Hne].
    + exists 0%nat. split; [|reflexivity].
      injection Hk as <-. rewrite Nat.add_0_r. exact Hv0.
    + destruct (IH (S a) k i Hv Hk) as (j & -> & Hj).
      exists (S j). split; [f_equal; lia | exact Hj].
Qed.

Lemma getitem_position (d : dict Z) (k : string) (i : Z) :
  values d = range (len d) ->
  getitem d k = Some i ->
  0 <= i /\ nth_error (keys d) (Z.to_nat i) = Some k.
Proof.
  unfold range, len. rewrite Nat2Z.id. intros Hv Hk.
  destruct (getitem_position_from (V := Z) d 0 k i Hv Hk) as (j & -> & Hj).
  simpl. rewrite Nat2Z.id. split; [lia | exact Hj].
Qed.

Lemma nth_error_getitem {V : Type} (d : dict V) :
  forall (j : nat) (k : string),
    NoDup (keys d) ->
    nth_error (keys d) j = Some k ->
    getitem d k = nth_error (values d) j.
Proof.
  unfold keys, values.
  induction d as [|[k0 v0] d IH]; simpl; intros j k Hnd Hj.
  - destruct j; discriminate.
  - inversion Hnd as [|? ? Hk0 Hnd']; subst.
    destruct j as [|j]; simpl in *.
    + injection Hj as <-. now rewrite String.eqb_refl.
    + destruct (String.eqb_spec k k0) as [->|_].
      * exfalso. apply Hk0. eapply nth_error_In, Hj.
      * now apply IH.
Qed.

(** X6.  In every state an encoder reaches, two different tokens never
    share an id. *)
Theorem vocabulary_ids_are_distinct
        (mk : option string -> string -> list string) (self : LabelField)
        (a b : string) (i : Z) :
  reachable mk self ->
  getitem (vocab self) a = Some i ->
  getitem (vocab self) b = Some i ->
  a = b.
Proof.
  intros Hr Ha Hb. destruct (reachable_tracks mk self Hr) as (tok & toks & Ht).
  destruct Ht as (_ & _ & Hids & _).
  destruct (getitem_position _ _ _ Hids Ha) as (_ & Ea).
  destruct (getitem_position _ _ _ Hids Hb) as (_ & Eb).
  congruence.
Qed.

(** ** Counts are occurrences *)

Lemma occurrences_snoc (toks : list string) (t k : string) :
  occurrences (toks ++ [t]) k = occurrences toks k + (if String.eqb k t then 1 else 0).
Proof.
  unfold occurrences. rewrite count_occ_app. simpl.
  destruct (string_dec t k) as [->|Hne].
  - rewrite String.eqb_refl. lia.
  - destruct (String.eqb_spec k t) as [->|_]; [contradiction | lia].
Qed.

Lemma setup_token_occurrences (tok : string -> list string) (toks : list string)
      (self : LabelField) (index : Z) (token : string) :
  tracks tok toks self ->
  counts_occurrences toks self ->
  counts_occurrences (toks ++ [token]) (after (setup_token index token) self).
Proof.
  intros (_ & Hkeys & _ & Hsame & _ & _) Hocc.
  pose proof (contains_same_keys (label_count_dict self) (vocab self) token Hsame) as Hc.
  unfold after. rewrite setup_token_eq.
  destruct (contains (vocab self) token) eqn:Ev.
  - unfold contains in Hc.
    destruct (getitem (label_count_dict self) token) as [n|] eqn:Ec; [|discriminate].
    intros k m. simpl. rewrite getitem_setitem, occurrences_snoc.
    destruct (String.eqb_spec k token) as [->|_].
    + intros E. injection E as <-. now rewrite (Hocc token n Ec).
    + intros E. rewrite (Hocc k m E). lia.
  - assert (Hnin : ~ In token toks).
    { intros Hin. apply first_seen_In in Hin. rewrite <- Hkeys in Hin.
      apply contains_In in Hin. congruence. }
    intros k m. simpl. rewrite getitem_setitem, occurrences_snoc.
    destruct (String.eqb_spec k token) as [->|_].
    + intros E. injection E as <-.
      unfold occurrences. rewrite (proj1 (count_occ_not_In string_dec toks token) Hnin).
      reflexivity.
    + intros E. rewrite (Hocc k m E). lia.
Qed.

Lemma setup_tokens_occurrences (tok : string -> list string) (tokens toks : list string) :
  forall self,
    tracks tok toks self ->
    counts_occurrences toks self ->
    exists self',
      setup_tokens (len (vocab self) - 1) tokens self = (Return (len (vocab self') - 1), self')
      /\ tracks tok (toks ++ tokens) self'
      /\ counts_occurrences (toks ++ tokens) self'.
Proof.
  revert toks. induction tokens as [|token rest IH]; intros toks self Ht Ho.
  - exists self. rewrite app_nil_r. split; [reflexivity | split; assumption].
  - destruct (setup_token_tracks tok toks self token Ht) as (self1 & E1 & Ht1).
    pose proof (setup_token_occurrences tok toks self (len (vocab self) - 1) token Ht Ho) as Ho1.
    unfold after in Ho1. rewrite E1 in Ho1. simpl in Ho1.
    destruct (IH _ _ Ht1 Ho1) as (self2 & E2 & Ht2 & Ho2).
    exists self2. rewrite <- app_assoc in Ht2, Ho2.
    split; [|split; assumption].
    simpl. unfold bind. rewrite E1. exact E2.
Qed.

Lemma setup_occurrences (tok : string -> list string) (toks : list string)
      (data : list (option (list string))) (self : LabelField) :
  tracks tok toks self ->
  counts_occurrences toks self ->
  counts_occurrences (toks ++ flat_map tok (seen_examples data)) (after (setup data) self).
Proof.
  intros Ht Ho. unfold after. rewrite setup_stream. unfold token_stream.
  destruct (setup_tokens_occurrences tok (flat_map tok (seen_examples data)) toks self Ht Ho)
    as (self' & E & _ & Ho').
  destruct Ht as (-> & _). rewrite E. exact Ho'.
Qed.

Lemma setup_calls_occurrences (tok : string -> list string)
      (calls : list (list (option (list string)))) :
  forall toks self,
    tracks tok toks self ->
    counts_occurrences toks self ->
    counts_occurrences (toks ++ observed tok calls) (setup_calls calls self).
Proof.
  induction calls as [|data calls IH]; intros toks self Ht Ho.
  - simpl. now rewrite app_nil_r.
  - simpl. rewrite app_assoc. apply IH.
    + apply setup_tracks, Ht.
    + apply setup_occurrences; assumption.
Qed.

Lemma tracks_count_at_id (tok : string -> list string) (toks : list string)
      (self : LabelField) (token : string) (i : Z) :
  tracks tok toks self ->
  counts_occurrences toks self ->
  getitem (vocab self) token = Some i ->
  nth_error (values (label_count_dict self)) (Z.to_nat i) = Some (occurrences toks token).
Proof.
  intros (_ & Hkeys & Hids & Hsame & _ & _) Ho Hi.
  destruct (getitem_position _ _ _ Hids Hi) as (_ & Hpos).
  rewrite <- Hsame in Hpos.
  assert (Hnd : NoDup (keys (label_count_dict self))).
  { rewrite Hsame, Hkeys. apply first_seen_NoDup. }
  pose proof (nth_error_getitem _ _ _ Hnd Hpos) as Eg.
  destruct (nth_error (values (label_count_dict self)) (Z.to_nat i)) as [c|] eqn:Ec.
  - now rewrite (Ho token c Eg).
  - exfalso. apply nth_error_None in Ec.
    assert (Z.to_nat i < List.length (keys (label_count_dict self)))%nat as Hlt.
    { apply nth_error_Some. congruence. }
    unfold keys, values in *. rewrite length_map in *. lia.
Qed.

(** X7.  After any sequence of [setup] calls on a fresh encoder, the entry
    of [label_count] at the id of a token is the number of times that token
    was observed. *)
Theorem label_count_at_id_is_occurrences
        (mk : option string -> string -> list string) (oh : bool) (sep : option string)
        (calls : list (list (option (list string)))) (token : string) (i : Z) :
  getitem (vocab (setup_calls calls (__init__ mk oh sep))) token = Some i ->
  exists cs,
    label_count (setup_calls calls (__init__ mk oh sep)) = Return cs
    /\ nth_error cs (Z.to_nat i) = Some (occurrences (observed (mk sep) calls) token).
Proof.
  intros Hi.
  pose proof (setup_calls_tracks (mk sep) calls [] _ (init_tracks mk oh sep)) as Ht.
  assert (Ho0 : counts_occurrences [] (__init__ mk oh sep)) by (intros k n E; discriminate).
  pose proof (setup_calls_occurrences (mk sep) calls [] _ (init_tracks mk oh sep) Ho0) as Ho.
  simpl in Ht, Ho.
  eexists. split.
  - unfold label_count. apply (tracks_counts _ _ _ Ht).
  - apply (tracks_count_at_id _ _ _ _ _ Ht Ho Hi).
Qed.

(** X8.  After any sequence of [setup] calls on a fresh encoder, the entry
    of [label_freq] at the id of a token is, over the rationals, the number
    of times the token was observed divided by the number of tokens
    observed. *)
Theorem label_freq_at_id_is_share
        (mk : option string -> string -> list string) (oh : bool) (sep : option string)
        (calls : list (list (option (list string)))) (token : string) (i : Z) :
  getitem (vocab (setup_calls calls (__init__ mk oh sep))) token = Some i ->
  exists freq : list Q,
    label_freq (setup_calls calls (__init__ mk oh sep)) = Return freq
    /\ nth_error freq (Z.to_nat i)
       = Some (inject_Z (occurrences (observed (mk sep) calls) token)
               / inject_Z (Z.of_nat (List.length (observed (mk sep) calls))))%Q.
Proof.
  intros Hi.
  pose proof (setup_calls_tracks (mk sep) calls [] _ (init_tracks mk oh sep)) as Ht.
  assert (Ho0 : counts_occurrences [] (__init__ mk oh sep)) by (intros k n E; discriminate).
  pose proof (setup_calls_occurrences (mk sep) calls [] _ (init_tracks mk oh sep) Ho0) as Ho.
  simpl in Ht, Ho.
  assert (Hne : vocab (setup_calls calls (__init__ mk oh sep)) <> []).
  { intros E. rewrite E in Hi. discriminate. }
  eexists. split; [apply (tracks_label_freq _ _ _ Ht Hne)|].
  rewrite !nth_error_map, (tracks_count_at_id _ _ _ _ _ Ht Ho Hi). simpl.
  destruct Ht as (_ & _ & _ & _ & -> & _). reflexivity.
Qed.

(** ** From setup to process *)

Lemma tracks_id_bound (tok : string -> list string) (toks : list string)
      (self : LabelField) (token : string) (i : Z) :
  tracks tok toks self ->
  getitem (vocab self) token = Some i ->
  0 <= i < len (vocab self) /\ nth_error (keys (vocab self)) (Z.to_nat i) = Some token.
Proof.
  intros (_ & _ & Hids & _) Hi. split.
  - apply getitem_In_values in Hi. rewrite Hids in Hi. now apply In_range.
  - now apply getitem_position.
Qed.

Lemma tracks_lookup_tokens (tok : string -> list string) (toks : list string)
      (self : LabelField) (tokens : list string) :
  tracks tok toks self ->
  (forall t, In t tokens -> In t toks) ->
  exists ids,
    lookup_tokens (vocab self) tokens = Return ids
    /\ Forall2 (fun t i => 0 <= i < len (vocab self)
                           /\ nth_error (keys (vocab self)) (Z.to_nat i) = Some t)
               tokens ids.
Proof.
  intros Ht. unfold lookup_tokens.
  induction tokens as [|t rest IH]; simpl; intros Hin.
  - exists []. split; [reflexivity | constructor].
  - assert (Hc : contains (vocab self) t = true).
    { apply contains_In. destruct Ht as (_ & -> & _). apply first_seen_In. auto. }
    unfold contains in Hc. unfold subscript at 1.
    destruct (getitem (vocab self) t) as [i|] eqn:Ei; [|discriminate].
    destruct IH as (ids & -> & Hall); [auto|].
    exists (i :: ids). split; [reflexivity|].
    constructor; [|exact Hall]. apply (tracks_id_bound _ _ _ _ _ Ht Ei).
Qed.

Lemma setup_token_one_hot (index : Z) (token : string) (self : LabelField) :
  one_hot (after (setup_token index token) self) = one_hot self.
Proof.
  unfold after. rewrite setup_token_eq.
  destruct (contains (vocab self) token); [|reflexivity].
  destruct (getitem (label_count_dict self) token); reflexivity.
Qed.

Lemma setup_calls_one_hot (calls : list (list (option (list string)))) (self : LabelField) :
  one_hot (setup_calls calls self) = one_hot self.
Proof.
  apply (setup_calls_preserves (fun s => one_hot s = one_hot self)); [|reflexivity].
  intros index token s E. now rewrite setup_token_one_hot.
Qed.

(** X9.  Every example that a [setup] call has seen can be processed
    afterwards: with [one_hot = False], [process] returns one id per token
    of the example, each in the range of the vocabulary, and the id of a
    token is its position in the first-seen order of the observed tokens, so
    the ids decode back to the tokens. *)
Theorem process_after_setup_decodes
        (mk : option string -> string -> list string) (sep : option string)
        (calls : list (list (option (list string))))
        (data : list (option (list string))) (example : string) :
  In data calls ->
  In example (seen_examples data) ->
  exists ids,
    result (process example) (setup_calls calls (__init__ mk false sep)) = Return ids
    /\ Forall2 (fun token i =>
                  0 <= i < len (vocab (setup_calls calls (__init__ mk false sep)))
                  /\ nth_error (first_seen (observed (mk sep) calls)) (Z.to_nat i) = Some token)
               (mk sep example) ids.
Proof.
  intros Hd He.
  pose proof (setup_calls_tracks (mk sep) calls [] _ (init_tracks mk false sep)) as Ht.
  simpl in Ht.
  assert (Hseen : forall t, In t (mk sep example) -> In t (observed (mk sep) calls)).
  { intros t Hin. unfold observed. apply in_flat_map. exists data. split; [exact Hd|].
    apply in_flat_map. exists example. split; assumption. }
  destruct (tracks_lookup_tokens _ _ _ _ Ht Hseen) as (ids & E & Hall).
  exists ids. unfold result. rewrite process_eq. simpl.
  rewrite setup_calls_one_hot. simpl.
  destruct Ht as (Etok & Hkeys & _). rewrite Etok, E. split; [reflexivity|].
  now rewrite <- Hkeys.
Qed.

(** ** Bounds on the frequencies *)

Lemma tracks_label_inv_freq (tok : string -> list string) (toks : list string) (self : LabelField) :
  tracks tok toks self -> vocab self <> [] ->
  label_inv_freq self
  = Return (map (fun x => 1 / x)%Q
                (map (fun x => x / inject_Z (sum (values (label_count_dict self))))%Q
                     (map inject_Z (values (label_count_dict self))))).
Proof.
  intros Ht Hne. unfold label_inv_freq.
  rewrite (tracks_label_freq _ _ _ Ht Hne). unfold scalar_div_tensor.
  apply comprehension_map. intros x Hx. unfold divide. simpl.
  destruct (Qeq_bool x 0) eqn:E; [|reflexivity].
  apply Qeq_bool_eq in E. exfalso.
  exact (tracks_freq_nonzero tok toks self x Ht Hne Hx E).
Qed.

(** X10.  In every state an encoder reaches with a non-empty vocabulary,
    every entry of [label_freq] is, over the rationals, greater than 0 and at
    most 1, and every entry of [label_inv_freq] is at least 1. *)
Theorem label_freq_bounds
        (mk : option string -> string -> list string) (self : LabelField) :
  reachable mk self ->
  vocab self <> [] ->
  exists freq inv : list Q,
    label_freq self = Return freq
    /\ label_inv_freq self = Return inv
    /\ Forall (fun f => 0 < f /\ f <= 1)%Q freq
    /\ Forall (fun w => 1 <= w)%Q inv.
Proof.
  intros Hr Hne. destruct (reachable_tracks mk self Hr) as (tok & toks & Ht).
  eexists. eexists.
  split; [apply (tracks_label_freq _ _ _ Ht Hne)|].
  split; [apply (tracks_label_inv_freq _ _ _ Ht Hne)|].
  destruct Ht as (_ & _ & _ & _ & _ & Hpos).
  assert (Hb : forall c, In c (values (label_count_dict self)) ->
                         1 <= c <= sum (values (label_count_dict self))).
  { intros c Hc. split.
    - rewrite Forall_forall in Hpos. apply Hpos, Hc.
    - apply sum_ge_entry; assumption. }
  split.
  - rewrite map_map. apply Forall_forall. intros f Hf.
    apply in_map_iff in Hf. destruct Hf as (c & <- & Hc).
    destruct (quotient_bounds c _ (proj1 (Hb c Hc)) (proj2 (Hb c Hc))) as (H0 & H1 & _).
    split; assumption.
  - rewrite !map_map. apply Forall_forall. intros w Hw.
    apply in_map_iff in Hw. destruct Hw as (c & <- & Hc).
    apply (quotient_bounds c _ (proj1 (Hb c Hc)) (proj2 (Hb c Hc))).
Qed.

(** ** The one-hot vector counts the distinct labels *)

Lemma NoDup_range (n : Z) : NoDup (range n).
Proof.
  unfold range. generalize (seq_NoDup (Z.to_nat n) 0).
  induction (seq 0 (Z.to_nat n)) as [|x l IH]; simpl; intros Hnd.
  - constructor.
  - inversion Hnd as [|? ? Hx Hl]; subst. constructor; [|auto].
    intros Hin. apply in_map_iff in Hin. destruct Hin as (y & Ey & Hy).
    apply Nat2Z.inj in Ey. subst y. contradiction.
Qed.

Lemma same_elements_length {A : Type} (l l' : list A) :
  NoDup l -> NoDup l' -> (forall x, In x l <-> In x l') ->
  List.length l = List.length l'.
Proof.
  intros Hl Hl' Hiff. apply Nat.le_antisymm.
  - apply NoDup_incl_length; [exact Hl | intros x Hx; now apply Hiff].
  - apply NoDup_incl_length; [exact Hl' | intros x Hx; now apply Hiff].
Qed.

Lemma sum_int_in (ids l : list Z) :
  sum (map (fun i => int_in i ids) l)
  = Z.of_nat (List.length (filter (fun i => existsb (Z.eqb i) ids) l)).
Proof.
  induction l as [|x l IH]; simpl.
  - reflexivity.
  - rewrite sum_cons, IH. unfold int_in.
    destruct (existsb (Z.eqb x) ids); simpl List.length; lia.
Qed.

Lemma one_hot_sum (ids : list Z) (n : Z) :
  (forall i, In i ids -> 0 <= i < n) ->
  sum (map (fun i => int_in i ids) (range n))
  = Z.of_nat (List.length (nodup Z.eq_dec ids)).
Proof.
  intros Hb. rewrite sum_int_in. f_equal.
  apply same_elements_length.
  - apply NoDup_filter, NoDup_range.
  - apply NoDup_nodup.
  - intros i. rewrite filter_In, nodup_In, existsb_exists. split.
    + intros (_ & j & Hj & E). apply Z.eqb_eq in E. now subst j.
    + intros Hi. split; [apply In_range, Hb, Hi|].
      exists i. split; [exact Hi | apply Z.eqb_refl].
Qed.

Section Matching.

Variable R : string -> Z -> Prop.
Hypothesis R_functional : forall t i i', R t i -> R t i' -> i = i'.
Hypothesis R_injective : forall t t' i, R t i -> R t' i -> t = t'.

Lemma Forall2_In_iff (ts : list string) (ids : list Z) (t : string) (i : Z) :
  Forall2 R ts ids -> R t i -> (In t ts <-> In i ids).
Proof.
  intros Hall Hti. induction Hall as [|t0 i0 ts ids H0 Hall IH]; simpl.
  - reflexivity.
  - rewrite IH. split; intros [E|H]; auto; left.
    + subst t0. eapply R_functional; eassumption.
    + subst i0. eapply R_injective; eassumption.
Qed.

Lemma Forall2_nodup_length (ts : list string) (ids : list Z) :
  Forall2 R ts ids ->
  List.length (nodup string_dec ts) = List.length (nodup Z.eq_dec ids).
Proof.
  induction 1 as [|t i ts ids Hti Hall IH]; simpl.
  - reflexivity.
  - pose proof (Forall2_In_iff ts ids t i Hall Hti) as Hiff.
    destruct (in_dec string_dec t ts) as [Ht|Ht], (in_dec Z.eq_dec i ids) as [Hi|Hi];
      simpl; try (exfalso; tauto); auto.
Qed.

End Matching.

Lemma lookup_tokens_Forall2 (v : dict Z) (tokens : list string) :
  forall ids,
    lookup_tokens v tokens = Return ids ->
    Forall2 (fun t i => getitem v t = Some i) tokens ids.
Proof.
  unfold lookup_tokens.
  induction tokens as [|t rest IH]; simpl; intros ids E.
  - injection E as <-. constructor.
  - unfold subscript at 1 in E.
    destruct (getitem v t) as [i|] eqn:Ei; [|discriminate].
    destruct (comprehension (subscript v) rest) as [js|e]; [|discriminate].
    injection E as <-. constructor; [exact Ei | now apply IH].
Qed.

Lemma first_seen_length (l : list string) :
  List.length (first_seen l) = List.length (nodup string_dec l).
Proof.
  apply same_elements_length.
  - apply first_seen_NoDup.
  - apply NoDup_nodup.
  - intros x. now rewrite first_seen_In, nodup_In.
Qed.

(** X11.  In every state an encoder reaches, when [process] with
    [one_hot = True] returns a vector, the number of ones in it (the sum of
    its entries) is the number of distinct tokens of the example: a label
    that the example repeats is marked once. *)
Theorem one_hot_sum_is_distinct_tokens
        (mk : option string -> string -> list string) (self : LabelField)
        (example : string) (v : list Z) :
  reachable mk self ->
  one_hot self = true ->
  result (process example) self = Return v ->
  sum v = Z.of_nat (List.length (first_seen (tokenizer self example))).
Proof.
  intros Hr Hoh. destruct (reachable_tracks mk self Hr) as (tok & toks & Ht).
  unfold result. rewrite process_eq. simpl. rewrite Hoh.
  destruct (lookup_tokens (vocab self) (tokenizer self example)) as [ids|e] eqn:E;
    [|discriminate].
  intros Ev. injection Ev as <-.
  pose proof (lookup_tokens_Forall2 _ _ _ E) as Hall.
  assert (Hall' : Forall2 (fun t i => 0 <= i < len (vocab self)
                                      /\ nth_error (keys (vocab self)) (Z.to_nat i) = Some t)
                          (tokenizer self example) ids).
  { revert Hall. apply Forall2_impl. intros t i Hi. apply (tracks_id_bound _ _ _ _ _ Ht Hi). }
  assert (Hnd : NoDup (keys (vocab self))).
  { destruct Ht as (_ & -> & _). apply first_seen_NoDup. }
  rewrite one_hot_sum.
  - rewrite first_seen_length. f_equal. symmetry.
    apply (Forall2_nodup_length _) with (3 := Hall').
    + intros t i i' (Hi & Ei) (Hi' & Ei').
      assert (Z.to_nat i = Z.to_nat i') as En.
      { apply (proj1 (NoDup_nth_error _) Hnd).
        - apply nth_error_Some. congruence.
        - congruence. }
      lia.
    + intros t t' i (_ & Ei) (_ & Ei'). congruence.
  - intros i Hi.
    clear E Hall. induction Hall' as [|t i0 ts ids0 H0 _ IH]; [contradiction|].
    destruct Hi as [<-|Hi]; [apply H0 | apply IH, Hi].
Qed.

(** ** What setup leaves alone *)

(** X12.  [setup] writes the vocabulary and the count table and nothing
    else: the output shape, the separator and the tokenizer of the object
    are the same after the call, whatever the collections and the outcome. *)
Theorem setup_keeps_configuration (data : list (option (list string))) (self : LabelField) :
  one_hot (after (setup data) self) = one_hot self
  /\ multilabel_sep (after (setup data) self) = multilabel_sep self
  /\ tokenizer (after (setup data) self) = tokenizer self.
Proof.
  apply (setup_preserves
           (fun s => one_hot s = one_hot self
                     /\ multilabel_sep s = multilabel_sep self
                     /\ tokenizer s = tokenizer self)).
  - intros index token s (Eo & Em & Et). unfold after. rewrite setup_token_eq.
    destruct (contains (vocab s) token).
    + destruct (getitem (label_count_dict s) token); simpl; auto.
    + simpl. auto.
  - auto.
Qed.

(** ** Repeating setup *)

Lemma first_seen_absorbs (l l' : list string) :
  (forall x, In x l' -> In x l) -> first_seen (l ++ l') = first_seen l.
Proof.
  induction l' as [|x l' IH] using rev_ind; intros Hin.
  - now rewrite app_nil_r.
  - rewrite app_assoc, first_seen_snoc.
    destruct (in_dec string_dec x (l ++ l')) as [_|Hn].
    + apply IH. intros y Hy. apply Hin, in_or_app. now left.
    + exfalso. apply Hn, in_or_app. left. apply Hin, in_or_app. right. now left.
Qed.

Lemma tracks_vocab (tok : string -> list string) (toks : list string) (self : LabelField) :
  tracks tok toks self ->
  vocab self = combine (first_seen toks) (range (Z.of_nat (List.length (first_seen toks)))).
Proof.
  intros Ht. pose proof (tracks_len _ _ _ Ht) as Hlen.
  destruct Ht as (_ & Hkeys & Hids & _).
  rewrite (combine_keys_values (vocab self)) at 1.
  now rewrite Hkeys, Hids, Hlen.
Qed.

Lemma values_by_key {V : Type} (d : dict V) (f : string -> V) :
  NoDup (keys d) ->
  (forall k v, getitem d k = Some v -> v = f k) ->
  values d = map f (keys d).
Proof.
  unfold keys, values.
  induction d as [|[k0 v0] d IH]; simpl; intros Hnd Hf.
  - reflexivity.
  - inversion Hnd as [|? ? Hk0 Hnd']; subst. f_equal.
    + apply Hf. now rewrite String.eqb_refl.
    + apply IH; [exact Hnd'|]. intros k v Hk. apply Hf.
      destruct (String.eqb_spec k k0) as [->|_]; [|exact Hk].
      exfalso. apply Hk0. apply in_map_iff.
      clear - Hk. induction d as [|[k1 v1] d IHd]; simpl in *; [discriminate|].
      destruct (String.eqb_spec k0 k1) as [->|_].
      * exists (k1, v1). auto.
      * destruct (IHd Hk) as (kv & E & Hin). exists kv. auto.
Qed.

Lemma tracks_counts_by_token (tok : string -> list string) (toks : list string)
      (self : LabelField) :
  tracks tok toks self ->
  counts_occurrences toks self ->
  label_count self = Return (map (occurrences toks) (first_seen toks)).
Proof.
  intros Ht Ho. unfold label_count. rewrite (tracks_counts _ _ _ Ht).
  destruct Ht as (_ & Hkeys & _ & Hsame & _). f_equal.
  rewrite <- Hkeys, <- Hsame. apply values_by_key.
  - rewrite Hsame, Hkeys. apply first_seen_NoDup.
  - exact Ho.
Qed.

(** X13.  Running a sequence of [setup] calls on a fresh encoder twice over
    gives the vocabulary that running it once gives, and doubles every entry
    of [label_count]: a repeated call adds to the counts and assigns no new
    id. *)
Theorem setup_repeated_doubles_counts
        (mk : option string -> string -> list string) (oh : bool) (sep : option string)
        (calls : list (list (option (list string)))) :
  vocab (setup_calls (calls ++ calls) (__init__ mk oh sep))
  = vocab (setup_calls calls (__init__ mk oh sep))
  /\ exists cs,
       label_count (setup_calls calls (__init__ mk oh sep)) = Return cs
       /\ label_count (setup_calls (calls ++ calls) (__init__ mk oh sep))
          = Return (map (fun c => 2 * c) cs).
Proof.
  assert (Ho0 : counts_occurrences [] (__init__ mk oh sep)) by (intros k n E; discriminate).
  pose proof (setup_calls_tracks (mk sep) calls [] _ (init_tracks mk oh sep)) as Ht1.
  pose proof (setup_calls_occurrences (mk sep) calls [] _ (init_tracks mk oh sep) Ho0) as Ho1.
  pose proof (setup_calls_tracks (mk sep) (calls ++ calls) [] _ (init_tracks mk oh sep)) as Ht2.
  pose proof (setup_calls_occurrences (mk sep) (calls ++ calls) [] _
                                      (init_tracks mk oh sep) Ho0) as Ho2.
  simpl in Ht1, Ho1, Ht2, Ho2.
  assert (Eobs : observed (mk sep) (calls ++ calls)
                 = observed (mk sep) calls ++ observed (mk sep) calls).
  { unfold observed. apply flat_map_app. }
  rewrite Eobs in Ht2, Ho2.
  assert (Efs : first_seen (observed (mk sep) calls ++ observed (mk sep) calls)
                = first_seen (observed (mk sep) calls)).
  { apply first_seen_absorbs. auto. }
  split.
  - rewrite (tracks_vocab _ _ _ Ht2), (tracks_vocab _ _ _ Ht1), Efs. reflexivity.
  - exists (map (occurrences (observed (mk sep) calls)) (first_seen (observed (mk sep) calls))).
    split; [apply (tracks_counts_by_token _ _ _ Ht1 Ho1)|].
    rewrite (tracks_counts_by_token _ _ _ Ht2 Ho2), Efs, map_map. f_equal.
    apply map_ext. intros t. unfold occurrences. rewrite count_occ_app. lia.
Qed.

(** ** The further properties at concrete encoders *)

Lemma setup_outcome_witness :
  result (setup [Some ["dog"]; None; Some ["fish"]]) (enc None [[Some ["cat"]]])
  = (if has_None [Some ["dog"]; None; Some ["fish"]] then Raise TypeError else Return tt)
  /\ after (setup [Some ["dog"]; None; Some ["fish"]]) (enc None [[Some ["cat"]]])
     = after (setup (present_prefix [Some ["dog"]; None; Some ["fish"]])) (enc None [[Some ["cat"]]]).
Proof.
  apply (setup_outcome [Some ["dog"]; None; Some ["fish"]] (enc None [[Some ["cat"]]])).
  reflexivity.
Defined.

Lemma setup_depends_on_token_stream_witness :
  setup [Some ["cat|dog"; "bird"]] (__init__ LabelTokenizer false (Some "|"))
  = setup [Some ["cat"]; Some []; Some ["dog|bird"]] (__init__ LabelTokenizer false (Some "|")).
Proof.
  apply (setup_depends_on_token_stream
           [Some ["cat|dog"; "bird"]] [Some ["cat"]; Some []; Some ["dog|bird"]]
           (__init__ LabelTokenizer false (Some "|"))); reflexivity.
Defined.

Lemma setup_concatenation_witness :
  result (setup [Some ["cat"; "dog"]]) (enc None [[Some ["cat"]]]) = Return tt
  /\ setup ([Some ["cat"; "dog"]] ++ [Some ["bird"]; None]) (enc None [[Some ["cat"]]])
     = setup [Some ["bird"]; None]
             (after (setup [Some ["cat"; "dog"]]) (enc None [[Some ["cat"]]])).
Proof.
  apply (setup_concatenation [Some ["cat"; "dog"]] [Some ["bird"]; None]
                             (enc None [[Some ["cat"]]])); reflexivity.
Defined.

Lemma setup_missing_count_raises_witness :
  result (setup [Some ["dog"; "cat"]])
         (mkLabelField false None [] (LabelTokenizer None) [("cat", 0)])
  = Raise KeyError.
Proof.
  apply (setup_missing_count_raises
           [Some ["dog"; "cat"]]
           (mkLabelField false None [] (LabelTokenizer None) [("cat", 0)]) "cat").
  - simpl. right. left. reflexivity.
  - reflexivity.
  - reflexivity.
Defined.

Lemma setup_only_grows_witness :
  exists n',
    getitem (label_count_dict (after (setup [Some ["dog"; "cat"]; None])
                                     (enc None [[Some ["cat"; "cat"]]]))) "cat" = Some n'
    /\ 2 <= n'.
Proof.
  apply (proj2 (setup_only_grows [Some ["dog"; "cat"]; None] (enc None [[Some ["cat"; "cat"]]]))
               "cat" 2); reflexivity.
Defined.

Lemma vocabulary_ids_are_distinct_witness : "dog" = "dog".
Proof.
  apply (vocabulary_ids_are_distinct LabelTokenizer (enc None [[Some ["cat"; "dog"]]])
                                     "dog" "dog" 1).
  - exact (reach_setup _ _ _ (reach_init _ _ _)).
  - reflexivity.
  - reflexivity.
Defined.

Lemma label_count_at_id_is_occurrences_witness :
  exists cs,
    label_count (setup_calls [[Some ["cat"; "dog"; "cat"]]] (__init__ LabelTokenizer false None))
    = Return cs
    /\ nth_error cs (Z.to_nat 0)
       = Some (occurrences (observed (LabelTokenizer None) [[Some ["cat"; "dog"; "cat"]]]) "cat").
Proof.
  apply (label_count_at_id_is_occurrences
           LabelTokenizer false None [[Some ["cat"; "dog"; "cat"]]] "cat" 0).
  reflexivity.
Defined.

Lemma label_freq_at_id_is_share_witness :
  exists freq : list Q,
    label_freq (setup_calls [[Some ["cat"; "dog"; "cat"]]] (__init__ LabelTokenizer false None))
    = Return freq
    /\ nth_error freq (Z.to_nat 1)
       = Some (inject_Z (occurrences (observed (LabelTokenizer None)
                                               [[Some ["cat"; "dog"; "cat"]]]) "dog")
               / inject_Z (Z.of_nat (List.length (observed (LabelTokenizer None)
                                                           [[Some ["cat"; "dog"; "cat"]]]))))%Q.
Proof.
  apply (label_freq_at_id_is_share
           LabelTokenizer false None [[Some ["cat"; "dog"; "cat"]]] "dog" 1).
  reflexivity.
Defined.

Lemma process_after_setup_decodes_witness :
  exists ids,
    result (process "bird|cat")
           (setup_calls [[Some ["cat|dog"; "bird|cat"]]] (__init__ LabelTokenizer false (Some "|")))
    = Return ids
    /\ Forall2 (fun token i =>
                  0 <= i < len (vocab (setup_calls [[Some ["cat|dog"; "bird|cat"]]]
                                                   (__init__ LabelTokenizer false (Some "|"))))
                  /\ nth_error (first_seen (observed (LabelTokenizer (Some "|"))
                                                     [[Some ["cat|dog"; "bird|cat"]]]))
                               (Z.to_nat i) = Some token)
               (LabelTokenizer (Some "|") "bird|cat") ids.
Proof.
  apply (process_after_setup_decodes
           LabelTokenizer (Some "|") [[Some ["cat|dog"; "bird|cat"]]]
           [Some ["cat|dog"; "bird|cat"]] "bird|cat").
  - left. reflexivity.
  - simpl. right. left. reflexivity.
Defined.

Lemma label_freq_bounds_witness :
  exists freq inv : list Q,
    label_freq (enc None [[Some ["cat"; "dog"; "cat"]]]) = Return freq
    /\ label_inv_freq (enc None [[Some ["cat"; "dog"; "cat"]]]) = Return inv
    /\ Forall (fun f => 0 < f /\ f <= 1)%Q freq
    /\ Forall (fun w => 1 <= w)%Q inv.
Proof.
  apply (label_freq_bounds LabelTokenizer (enc None [[Some ["cat"; "dog"; "cat"]]])).
  - exact (reach_setup _ _ _ (reach_init _ _ _)).
  - vm_compute. discriminate.
Defined.

Lemma one_hot_sum_is_distinct_tokens_witness :
  sum [1; 1; 0]
  = Z.of_nat (List.length (first_seen (LabelTokenizer (Some "|") "cat|dog|cat"))).
Proof.
  apply (one_hot_sum_is_distinct_tokens
           LabelTokenizer
           (setup_calls [[Some ["dog|cat"; "bird"]]] (__init__ LabelTokenizer true (Some "|")))
           "cat|dog|cat" [1; 1; 0]).
  - exact (reach_setup _ _ _ (reach_init _ _ _)).
  - reflexivity.
  - reflexivity.
Defined.
